(** * Grain algebra of the VAM waveform editor

    A shallow embedding of the grain helpers ([splitGrainIntoTwo],
    [splitGrain], [createEquallySpacedGrains], [grainLengths],
    [createSampleCases], [grainIndexesInView], [createFillerGrain],
    [whichGrainsToShow], [isInGrain]) together with the properties the
    specification states about them.

    Sample indices are JavaScript numbers that only ever hold integers; they
    are modelled by [Z].  A grain is a JavaScript object with the two numeric
    properties [start] and [end] that the Flow type [grainType] guarantees,
    plus any further properties, kept in a finite map. *)

From stdpp Require Import gmap strings list fin_maps.
From Stdlib Require Import ZArith QArith Qround Lia.

Local Open Scope Z_scope.

(** ** Data model *)

(** Values of the properties a grain carries besides [start] and [end]. *)
Inductive jsval : Type :=
  | JNum (n : Z)
  | JBool (b : bool)
  | JStr (s : string).

(** [grainType]: [end] is a keyword, hence [end_]; [rest] holds the
    properties other than [start] and [end]. *)
Record grain : Type := mkGrain {
  start : Z;
  end_ : Z;
  rest : gmap string jsval
}.

(** [viewType] *)
Record view : Type := mkView {
  vstart : Z;
  vend : Z
}.

(** The object [{ startIndex, endIndex }] returned by [grainIndexesInView]. *)
Record indexesInView : Type := mkIndexes {
  startIndex : Z;
  endIndex : Z
}.

(** ** Exceptions

    Reading a property of [undefined] throws a [TypeError]; the only way the
    modelled functions can do so is by reading a property of an array element
    that does not exist.  The exception records the index that was read. *)
Inductive exn : Type :=
  | TypeError (index : Z).

Inductive result (A : Type) : Type :=
  | Ok (a : A)
  | Throw (e : exn).

Arguments Ok {A} a.
Arguments Throw {A} e.

Definition bind {A B : Type} (m : result A) (k : A -> result B) : result B :=
  match m with
  | Ok a => k a
  | Throw e => Throw e
  end.

Notation "'let*' x ':=' m 'in' k" := (bind m (fun x => k))
  (at level 10, x name, m at level 100, k at level 200).

(** ** JavaScript arrays *)

Section Arrays.
Context {A : Type}.

(** [arr[i]] as an expression: [None] stands for [undefined]. *)
Definition index (arr : list A) (i : Z) : option A :=
  if i <? 0 then None else arr !! Z.to_nat i.

(** [arr[i].prop]: the element must exist for a property to be read. *)
Definition element (arr : list A) (i : Z) : result A :=
  match index arr i with
  | Some a => Ok a
  | None => Throw (TypeError i)
  end.

(** Relative index of [Array.prototype.slice]: negative arguments count
    from the end, and everything is clamped to [0, len]. *)
Definition relativeIndex (len k : Z) : Z :=
  if k <? 0 then Z.max (len + k) 0 else Z.min k len.

(** [arr.slice(from, to)] *)
Definition slice (arr : list A) (from to : Z) : list A :=
  let len := Z.of_nat (length arr) in
  let k := relativeIndex len from in
  let final := relativeIndex len to in
  take (Z.to_nat (final - k)) (drop (Z.to_nat k) arr).
End Arrays.

(** [arr.length] *)
Definition len {A : Type} (arr : list A) : Z := Z.of_nat (length arr).

(** ** Division binary search *)

(** [isInGrain] *)
Definition isInGrain (target : Z) (g : grain) : bool :=
  let aboveStart := target >=? start g in
  let belowEnd := target <? end_ g in
  let inGrain := aboveStart && belowEnd in
  inGrain.

(** Modelled from the spec: the loop of [divisionBinarySearch], which lives in
    the module [./generic] and is not part of the sources at hand.  The
    specification describes a standard binary search between a low and a high
    index that compares the target with the candidate grain's [start] and
    [end]: below [start] it continues to the left, at or above [end] to the
    right, and otherwise the candidate contains the target.  [-1] is the only
    non-index result the specification names, so it is returned when the
    interval becomes empty.  The fuel bounds the number of iterations; the
    interval shrinks by at least one grain per iteration, so the number of
    grains is always enough (see [searchLoop_finds]). *)
Fixpoint searchLoop (fuel : nat) (target : Z) (grains : list grain)
    (low high : Z) : Z :=
  match fuel with
  | O => -1
  | S fuel' =>
      if high <? low then -1
      else
        let middle := (low + high) / 2 in
        match index grains middle with
        | None => -1
        | Some candidate =>
            if target <? start candidate then
              searchLoop fuel' target grains low (middle - 1)
            else if target >=? end_ candidate then
              searchLoop fuel' target grains (middle + 1) high
            else middle
        end
  end.

(** Modelled from the spec: [divisionBinarySearch(target, grains, upperBound?)]
    of the module [./generic].  With an upper bound and a target at or beyond
    it the result is the sentinel [-1], without any search; otherwise the
    result is the index of the grain whose interval contains the target. *)
Definition divisionBinarySearch (target : Z) (grains : list grain)
    (upperBound : option Z) : Z :=
  let search := searchLoop (length grains) target grains 0 (len grains - 1) in
  match upperBound with
  | Some bound => if target >=? bound then -1 else search
  | None => search
  end.

Arguments divisionBinarySearch : simpl never.

(** ** Splitting *)

(** [splitGrainIntoTwo]: the spread [{...grain, start, end}] copies every
    property of [grain] and overrides [start] and [end]. *)
Definition splitGrainIntoTwo (g : grain) (splitPoint : Z) : list grain :=
  let pointTooLow := splitPoint <=? start g in
  let pointTooHigh := splitPoint >=? end_ g - 1 in
  if pointTooLow || pointTooHigh then [g]
  else
    let leftStart := start g in
    let leftEnd := splitPoint in
    let rightStart := splitPoint in
    let rightEnd := end_ g in
    let leftGrain := {| start := leftStart; end_ := leftEnd; rest := rest g |} in
    let rightGrain := {| start := rightStart; end_ := rightEnd; rest := rest g |} in
    [leftGrain; rightGrain].

(** [splitGrain] *)
Definition splitGrain (grains : list grain) (splitPoint : Z)
    : result (list grain) :=
  let* first := element grains 0 in
  let firstSample := start first in
  let lastGrainIndex := len grains - 1 in
  let* last := element grains lastGrainIndex in
  let lastSample := end_ last - 1 in
  let pointTooLow := splitPoint <=? firstSample in
  let pointTooHigh := splitPoint >=? lastSample in
  if pointTooLow || pointTooHigh then Ok grains
  else
    let targetGrainIndex := divisionBinarySearch splitPoint grains None in
    let leftSide := slice grains 0 targetGrainIndex in
    let rightSide := slice grains (targetGrainIndex + 1) (lastGrainIndex + 1) in
    let* targetGrain :=
      element (slice grains targetGrainIndex (targetGrainIndex + 1)) 0 in
    let splitGrain := splitGrainIntoTwo targetGrain splitPoint in
    let newGrains := leftSide ++ splitGrain ++ rightSide in
    Ok newGrains.

(** ** Equally spaced grains *)

(** Modelled from the spec: [range(n)] of the module [./generic], the
    sequence [0 .. n-1]. *)
Definition range (n : Z) : list Z := seqZ 0 n.

(** [Math.ceil(a / b)] on integers. *)
Definition Math_ceil_div (a b : Z) : Z := - ((- a) / b).

(** Modelled from the spec: [logicalSegment(data, grainLength)] of the module
    [./generic].  It partitions [[0, sampleCount)] into consecutive grains of
    length [grainLength], the final grain shortened to fit, and the grains
    carry nothing but [start] and [end]. *)
Definition logicalSegment {D : Type} (data : list D) (grainLength : Z)
    : list grain :=
  let sampleCount := len data in
  (fun k =>
     {| start := k * grainLength;
        end_ := Z.min ((k + 1) * grainLength) sampleCount;
        rest := empty |})
    <$> range (Math_ceil_div sampleCount grainLength).

Section EquallySpaced.
(** [secondsToSamples] of the module [./convert], which is not part of the
    sources at hand: the specification only gives its signature, from a
    duration in seconds (a number, here a rational) to a count of samples,
    so it is a parameter. *)
Variable secondsToSamples : Q -> Z.

(** [createEquallySpacedGrains] *)
Definition createEquallySpacedGrains {D : Type} (data : list D)
    (secondsPerGrain : Q) : list grain :=
  let grainLength := secondsToSamples secondsPerGrain in
  let grains := logicalSegment data grainLength in
  grains.
End EquallySpaced.

(** ** Sample cases *)

(** [grainLengths] *)
Definition grainLengths (grains : list grain) : list Z :=
  (fun g => end_ g - start g) <$> grains.

(** [Math.abs] applied to [data[i]]: the absolute value of a sample, and
    [NaN] (here [None]) for [undefined]. *)
Definition Math_abs (x : option Z) : option Z :=
  match x with
  | Some n => Some (Z.abs n)
  | None => None
  end.

Section SampleCases.
(** [random(low, high)] of the module [./math] draws from a hidden
    generator, whose state is threaded explicitly here. *)
Variable rng : Type.
Variable random : Z -> Z -> rng -> Z * rng.

(** [indexes.map(() => random(low, high))]: one draw per element, from
    left to right. *)
Fixpoint drawEach (indexes : list Z) (low high : Z) (s : rng)
    : list Z * rng :=
  match indexes with
  | [] => ([], s)
  | _ :: indexes' =>
      let '(x, s1) := random low high s in
      let '(xs, s2) := drawEach indexes' low high s1 in
      (x :: xs, s2)
  end.

(** [arr.map((x, i) => ...)] for a callback that draws random numbers and
    may throw; [i] is the index of the head of [arr]. *)
Fixpoint mapIndexed {A B : Type} (f : A -> Z -> rng -> result (B * rng))
    (arr : list A) (i : Z) (s : rng) : result (list B * rng) :=
  match arr with
  | [] => Ok ([], s)
  | x :: arr' =>
      let* r := f x i s in
      let* r' := mapIndexed f arr' (i + 1) (snd r) in
      Ok (fst r :: fst r', snd r')
  end.

(** [createSampleCases] *)
Definition createSampleCases (grains : list grain) (data : list Z)
    (caseRate : Z) (s : rng) : result (list (list (option Z)) * rng) :=
  let lengths := grainLengths grains in
  let casesPerGrain := (fun l => Math_ceil_div l caseRate) <$> lengths in
  let rangePerGrain := range <$> casesPerGrain in
  let cases :=
    mapIndexed
      (fun g i s =>
         let* indexes := element rangePerGrain i in
         let '(casesIndexes, s') := drawEach indexes (start g) (end_ g) s in
         let collectedSignedData := (fun i => index data i) <$> casesIndexes in
         let collectedData := Math_abs <$> collectedSignedData in
         Ok (collectedData, s'))
      grains 0 s in
  cases.
End SampleCases.

(** ** Grains in view *)

(** [grainIndexesInView] *)
Definition grainIndexesInView (grains : list grain) (v : view)
    : result indexesInView :=
  let lastIndex := len grains - 1 in
  let* last := element grains lastIndex in
  let trackLength := end_ last in
  let startIndex :=
    divisionBinarySearch (vstart v) grains (Some trackLength) in
  let endIndexFromSearch :=
    divisionBinarySearch (vend v) grains (Some trackLength) in
  let endIndex :=
    if endIndexFromSearch =? -1 then lastIndex else endIndexFromSearch in
  let indexesInView := {| startIndex := startIndex; endIndex := endIndex |} in
  Ok indexesInView.

(** [createFillerGrain] *)
Definition createFillerGrain (start end_ : Z) (more : bool) : grain :=
  {| start := start;
     end_ := end_;
     rest := <["filler" := JBool true]> {["more" := JBool more]} |}.

(** [whichGrainsToShow] *)
Definition whichGrainsToShow (grains : list grain) (v : view)
    : result (list grain) :=
  let viewStart := vstart v in
  let viewEnd := vend v in
  let* ix := grainIndexesInView grains v in
  let startIndex := startIndex ix in
  let endIndex := endIndex ix in
  let* firstGrainToShow := element grains startIndex in
  let moreStart := negb (startIndex =? 0) in
  let startFiller :=
    createFillerGrain viewStart (start firstGrainToShow) moreStart in
  let* lastGrainToShow := element grains endIndex in
  let lastGrainIndex := len grains - 1 in
  let moreEnd := negb (lastGrainIndex =? endIndex) in
  let endFiller := createFillerGrain (end_ lastGrainToShow) viewEnd moreEnd in
  let grainsToInclude := slice grains startIndex (endIndex + 1) in
  let grainsToShow := [startFiller] ++ grainsToInclude ++ [endFiller] in
  Ok grainsToShow.

(** ** The grain sequence invariant *)

(** Every pair of neighbours of a sequence is related by [R]. *)
Fixpoint adjacent (R : grain -> grain -> Prop) (grains : list grain) : Prop :=
  match grains with
  | g :: grains' =>
      match grains' with
      | g' :: _ => R g g' /\ adjacent R grains'
      | [] => True
      end
  | [] => True
  end.

(** Adjacent grains touch: each grain ends where the next one starts. *)
Definition contiguous (grains : list grain) : Prop :=
  adjacent (fun g g' => end_ g = start g') grains.

(** Grains are sorted ascending by their start. *)
Definition sortedAscending (grains : list grain) : Prop :=
  adjacent (fun g g' => start g <= start g') grains.

(** A grain proper is a non-empty interval. *)
Definition wellFormed (g : grain) : Prop := start g < end_ g.

(** Start of the first grain and end of the last one. *)
Definition firstStart (grains : list grain) : option Z :=
  start <$> head grains.

Definition lastEnd (grains : list grain) : option Z :=
  end_ <$> last grains.

(** The two halves of a grain cut at [splitPoint]. *)
Definition leftHalf (g : grain) (splitPoint : Z) : grain :=
  {| start := start g; end_ := splitPoint; rest := rest g |}.

Definition rightHalf (g : grain) (splitPoint : Z) : grain :=
  {| start := splitPoint; end_ := end_ g; rest := rest g |}.

(** Whether some grain of a sequence contains the sample: the samples covered
    by the sequence are the union of its grains' intervals. *)
Definition covers (grains : list grain) (sample : Z) : bool :=
  existsb (isInGrain sample) grains.

(** What [createSampleCases] guarantees for one grain and its cases. *)
Definition casesOf (data : list Z) (caseRate : Z) (g : grain)
    (inner : list (option Z)) : Prop :=
  Z.of_nat (length inner) = Math_ceil_div (end_ g - start g) caseRate /\
  forall value, value ∈ inner ->
    exists j, start g <= j < end_ g /\ value = Math_abs (index data j) /\
      (0 <= start g -> end_ g <= len data ->
       exists sample, index data j = Some sample /\ value = Some (Z.abs sample)).

(** The grain of a sequence that holds a sample: the first one that contains
    it. *)
Fixpoint grainAt (grains : list grain) (sample : Z) : option grain :=
  match grains with
  | [] => None
  | g :: grains' =>
      if isInGrain sample g then Some g else grainAt grains' sample
  end.

(** Every grain of a sequence cut on its own at the split point. *)
Definition splitEvery (grains : list grain) (splitPoint : Z) : list grain :=
  grains ≫= (fun g => splitGrainIntoTwo g splitPoint).

(** Sum of a list of lengths. *)
Definition total (lengths : list Z) : Z := foldr Z.add 0 lengths.

(** ** Removing a track

    The action creators of [actions/removeTrack.js].  The thunk that
    [removeTrack] returns reads the state once and calls [dispatch] once or
    twice; it is modelled by the list of what it dispatches, in order, for the
    state that [getState] returns. *)

(** [arr.indexOf(x)]: the first index that holds [x], or [-1]. *)
Fixpoint indexOfFrom (arr : list string) (x : string) (from : Z) : Z :=
  match arr with
  | [] => -1
  | y :: arr' => if decide (y = x) then from else indexOfFrom arr' x (from + 1)
  end.

Definition indexOf (arr : list string) (x : string) : Z := indexOfFrom arr x 0.

Section RemoveTrack.
(** A track object; the action never looks inside. *)
Variable track : Type.

(** [state.tracks]: the track list is an object from track ids to tracks, and
    the selected track is an id, or nothing. *)
Record tracksState : Type := mkTracksState {
  trackList : gmap string track;
  selectedTrack : option string
}.

(** [State], as far as the action reads it. *)
Record State : Type := mkState {
  tracks : tracksState
}.

(** An action with a track list as payload: the values of the new track list
    are [trackList[id]], which is [undefined] ([None]) for an id that the old
    track list does not hold. *)
Record Action : Type := mkAction {
  type : string;
  payload : gmap string (option track)
}.

(** What the thunk hands to [dispatch]: an action object, or the result of
    [selectTrack(nextTrack)], an action creator of the module [./selectTrack]
    that is not part of the sources at hand and is kept as a symbol applied to
    its argument; [nextTrack] is [filteredIds[i]], hence possibly
    [undefined]. *)
Inductive dispatched : Type :=
  | DispatchAction (action : Action)
  | DispatchSelectTrack (nextTrack : option string).

(** The constant [REMOVE_TRACK] of [constants/actionTypes], the selector
    [trackIdArray] of [selectors/trackIdArray] and [clamp] of [help/math] are
    not part of the sources at hand either; they are parameters. *)
Variable REMOVE_TRACK : string.
Variable trackIdArray : State -> list string.
Variable clamp : Z -> Z -> Z -> Z.

(** [removeTrackSimple] *)
Definition removeTrackSimple (newTrackList : gmap string (option track))
    : Action :=
  {| type := REMOVE_TRACK; payload := newTrackList |}.

(** [removeTrack] *)
Definition removeTrack (trackId : string) (state : State) : list dispatched :=
  let trackIds := trackIdArray state in
  let trackList := trackList (tracks state) in
  let selectedTrack := selectedTrack (tracks state) in
  let filteredIds := filter (fun id => trackId <> id) trackIds in
  let newTrackList :=
    foldl (fun current id => <[id := trackList !! id]> current) empty
      filteredIds in
  let removal := DispatchAction (removeTrackSimple newTrackList) in
  if decide (Some trackId = selectedTrack) then
    let trackListLength := len trackIds in
    let oldMaxIndex := trackListLength - 1 in
    let newMaxIndex := oldMaxIndex - 1 in
    let removedTrackIndex := indexOf trackIds trackId in
    let nextTrackIdIndex := clamp removedTrackIndex 0 newMaxIndex in
    let nextTrack := index filteredIds nextTrackIdIndex in
    [removal; DispatchSelectTrack nextTrack]
  else [removal].
End RemoveTrack.

Arguments trackList {track} _.
Arguments selectedTrack {track} _.
Arguments tracks {track} _.
Arguments type {track} _.
Arguments payload {track} _.
Arguments DispatchAction {track} _.
Arguments DispatchSelectTrack {track} _.

(** ** Scenarios *)

(** The track of the specification's scenarios: three grains of ten samples. *)
Definition exampleGrains : list grain :=
  [ {| start := 0; end_ := 10; rest := empty |};
    {| start := 10; end_ := 20; rest := empty |};
    {| start := 20; end_ := 30; rest := empty |} ].

(** A view inside the track whose ends fall inside the first and the last
    grain. *)
Definition exampleView : view := {| vstart := 5; vend := 25 |}.

(** A view that starts where the track ends. *)
Definition beyondView : view := {| vstart := 30; vend := 35 |}.

(** A generator for [random] that walks through the span, and a conversion of
    seconds at 8 samples per second. *)
Definition walkingRandom (low high : Z) (s : Z) : Z * Z :=
  (low + s mod (high - low), s + 1).

Definition eightPerSecond (s : Q) : Z := Qfloor (s * 8).

(** Three tracks, of which ["intro"] is selected; a selector that lists the
    ids of the track list; and a [clamp]. *)
Definition exampleState : State nat :=
  {| tracks :=
       {| trackList := {["intro" := 1%nat; "verse" := 2%nat; "chorus" := 3%nat]};
          selectedTrack := Some "intro" |} |}.

(** The same tracks with a selection that names no listed track. *)
Definition staleState : State nat :=
  {| tracks :=
       {| trackList := {["intro" := 1%nat; "verse" := 2%nat; "chorus" := 3%nat]};
          selectedTrack := Some "outro" |} |}.

Definition listedIds (state : State nat) : list string :=
  fst <$> map_to_list (trackList (tracks state)).

Definition clampBetween (value low high : Z) : Z :=
  Z.max low (Z.min value high).

(** Facts about concrete sequences follow by evaluation. *)
Ltac evaluate :=
  unfold contiguous, sortedAscending, wellFormed, firstStart, lastEnd, len;
  simpl; first [reflexivity | lia | done].

(** * Properties *)

(** ** Arrays *)

Section ArrayFacts.
Context {A : Type}.
Implicit Types (arr : list A) (i : Z) (n : nat).

Lemma index_nat arr n : index arr (Z.of_nat n) = arr !! n.
Proof.
  unfold index. destruct (Z.ltb_spec (Z.of_nat n) 0); [lia |].
  by rewrite Nat2Z.id.
Qed.

Lemma index_Some arr i a :
  index arr i = Some a -> 0 <= i < len arr /\ arr !! Z.to_nat i = Some a.
Proof.
  unfold index, len. destruct (Z.ltb_spec i 0); [done |].
  intros H'. split; [| done]. apply lookup_lt_Some in H'. lia.
Qed.

Lemma index_negative arr i : i < 0 -> index arr i = None.
Proof. unfold index. destruct (Z.ltb_spec i 0); [done | lia]. Qed.

Lemma element_nat arr n a : arr !! n = Some a -> element arr (Z.of_nat n) = Ok a.
Proof. intros H. unfold element. by rewrite index_nat, H. Qed.

Lemma element_first arr a : arr !! 0%nat = Some a -> element arr 0 = Ok a.
Proof. apply (element_nat arr 0). Qed.

Lemma element_negative arr i : i < 0 -> element arr i = Throw (TypeError i).
Proof. intros H. unfold element. by rewrite index_negative. Qed.

Lemma element_last arr a : last arr = Some a -> element arr (len arr - 1) = Ok a.
Proof.
  intros H. rewrite last_lookup in H.
  assert (length arr <> 0%nat) by (destruct arr; [done | simpl; lia]).
  replace (len arr - 1) with (Z.of_nat (Nat.pred (length arr))) by (unfold len; lia).
  by apply element_nat.
Qed.

Lemma slice_prefix arr n :
  (n <= length arr)%nat -> slice arr 0 (Z.of_nat n) = take n arr.
Proof.
  intros H. unfold slice, relativeIndex.
  destruct (Z.ltb_spec 0 0); [lia |].
  destruct (Z.ltb_spec (Z.of_nat n) 0); [lia |].
  rewrite Z.min_l by lia. rewrite Z.min_l by lia.
  simpl. rewrite drop_0. f_equal. lia.
Qed.

Lemma slice_suffix arr n :
  (n <= length arr)%nat -> slice arr (Z.of_nat n) (len arr) = drop n arr.
Proof.
  intros H. unfold slice, relativeIndex, len.
  destruct (Z.ltb_spec (Z.of_nat n) 0); [lia |].
  destruct (Z.ltb_spec (Z.of_nat (length arr)) 0); [lia |].
  rewrite Z.min_l by lia. rewrite Z.min_l by lia.
  rewrite Nat2Z.id. apply take_ge. rewrite length_drop. lia.
Qed.

Lemma slice_range arr n m :
  (n <= m <= length arr)%nat ->
  slice arr (Z.of_nat n) (Z.of_nat m) = take (m - n) (drop n arr).
Proof.
  intros H. unfold slice, relativeIndex.
  destruct (Z.ltb_spec (Z.of_nat n) 0); [lia |].
  destruct (Z.ltb_spec (Z.of_nat m) 0); [lia |].
  rewrite Z.min_l by lia. rewrite Z.min_l by lia.
  rewrite Nat2Z.id. f_equal. lia.
Qed.

Lemma slice_single arr n a :
  arr !! n = Some a -> slice arr (Z.of_nat n) (Z.of_nat n + 1) = [a].
Proof.
  intros H. pose proof (lookup_lt_Some _ _ _ H) as Hlt.
  replace (Z.of_nat n + 1) with (Z.of_nat (S n)) by lia.
  rewrite slice_range by lia.
  replace (S n - n)%nat with 1%nat by lia.
  rewrite (drop_S _ _ _ H). done.
Qed.
End ArrayFacts.

(** ** Neighbours *)

Lemma adjacent_tail R g grains : adjacent R (g :: grains) -> adjacent R grains.
Proof. destruct grains; simpl; tauto. Qed.

Lemma adjacent_lookup R grains (n : nat) g g' :
  adjacent R grains -> grains !! n = Some g -> grains !! S n = Some g' -> R g g'.
Proof.
  revert n. induction grains as [| a grains IH]; intros n Hadj Hg Hg'; [done |].
  destruct n as [| n].
  - simpl in Hg, Hg'. destruct grains; simplify_eq/=. tauto.
  - apply (IH n); [by eapply adjacent_tail | done | done].
Qed.

(** Replacing one grain by two that together take its place keeps the
    neighbours related. *)
Lemma adjacent_replace R before g l r after :
  (forall a, R a g -> R a l) -> (forall b, R g b -> R r b) -> R l r ->
  adjacent R (before ++ g :: after) -> adjacent R (before ++ l :: r :: after).
Proof.
  intros Hl Hr Hlr.
  induction before as [| a before IH]; intros Hadj.
  - simpl in *. split; [done |]. destruct after; [done |]. split; [apply Hr |]; tauto.
  - destruct before as [| b before].
    + simpl in Hadj. destruct Hadj as [Hag Hadj]. specialize (IH Hadj).
      simpl. split; [by apply Hl |]. exact IH.
    + change (R a b /\ adjacent R ((b :: before) ++ g :: after)) in Hadj.
      change (R a b /\ adjacent R ((b :: before) ++ l :: r :: after)).
      split; [tauto |]. apply IH. tauto.
Qed.

Lemma sortedAscending_lookup grains (n m : nat) g g' :
  sortedAscending grains -> (n <= m)%nat ->
  grains !! n = Some g -> grains !! m = Some g' -> start g <= start g'.
Proof.
  intros Hs Hnm Hg. revert g'.
  induction Hnm as [| m Hnm IH]; intros g' Hg'.
  - simplify_eq. lia.
  - destruct (lookup_lt_is_Some_2 grains m) as [gm Hgm].
    { apply lookup_lt_Some in Hg'. lia. }
    specialize (IH gm Hgm).
    pose proof (adjacent_lookup _ _ _ _ _ Hs Hgm Hg') as Hstep. simpl in Hstep. lia.
Qed.

(** In a contiguous sorted sequence a grain ends no later than any later
    grain starts. *)
Lemma contiguous_end_le_start grains (n m : nat) g g' :
  contiguous grains -> sortedAscending grains -> (n < m)%nat ->
  grains !! n = Some g -> grains !! m = Some g' -> end_ g <= start g'.
Proof.
  intros Hc Hs Hnm Hg Hg'.
  destruct (lookup_lt_is_Some_2 grains (S n)) as [gn Hgn].
  { apply lookup_lt_Some in Hg'. lia. }
  pose proof (adjacent_lookup _ _ _ _ _ Hc Hg Hgn) as Hstep. simpl in Hstep.
  assert (S n <= m)%nat as Hle by lia.
  pose proof (sortedAscending_lookup _ _ _ _ _ Hs Hle Hgn Hg'). lia.
Qed.

(** ** The search *)

Lemma isInGrain_spec target g :
  isInGrain target g = true <-> start g <= target < end_ g.
Proof.
  unfold isInGrain. rewrite andb_true_iff, Z.geb_le, Z.ltb_lt. lia.
Qed.

(** The loop finds the grain that contains the target whenever that grain
    lies between [low] and [high]; the fuel never runs out before. *)
Lemma searchLoop_finds grains target (n : nat) g :
  contiguous grains -> sortedAscending grains ->
  grains !! n = Some g -> isInGrain target g = true ->
  (forall gl, last grains = Some gl -> target < end_ gl) ->
  forall fuel low high,
    0 <= low <= Z.of_nat n -> Z.of_nat n <= high < len grains ->
    high - low + 1 <= Z.of_nat fuel ->
    searchLoop fuel target grains low high = Z.of_nat n.
Proof.
  intros Hc Hs Hg Hin Hlast. apply isInGrain_spec in Hin.
  induction fuel as [| fuel IH]; intros low high Hlow Hhigh Hfuel; [lia |].
  simpl. destruct (Z.ltb_spec high low) as [| _]; [lia |].
  assert (low <= (low + high) / 2 <= high) as Hmid.
  { split; [apply Z.div_le_lower_bound | apply Z.div_le_upper_bound]; lia. }
  set (middle := (low + high) / 2) in *.
  destruct (lookup_lt_is_Some_2 grains (Z.to_nat middle)) as [c Hc'].
  { unfold len in Hhigh. lia. }
  unfold index. destruct (Z.ltb_spec middle 0) as [| _]; [lia |]. rewrite Hc'.
  destruct (Z.ltb_spec target (start c)) as [Hlt | Hge].
  - (* the grain sought lies to the left *)
    apply IH; [lia | | lia].
    destruct (decide (Z.to_nat middle <= n)%nat) as [Hle | Hgt]; [| lia].
    pose proof (sortedAscending_lookup _ _ _ _ _ Hs Hle Hc' Hg). lia.
  - rewrite Z.geb_leb. destruct (Z.leb_spec (end_ c) target) as [Hend | Hend].
    + (* the grain sought lies to the right *)
      apply IH; [| lia | lia].
      destruct (decide (n <= Z.to_nat middle)%nat) as [Hle | Hgt]; [| lia].
      exfalso. destruct (decide (n = Z.to_nat middle)) as [-> | Hne].
      { simplify_eq. lia. }
      assert (n < Z.to_nat middle)%nat as Hlt' by lia.
      pose proof (contiguous_end_le_start _ _ _ _ _ Hc Hs Hlt' Hg Hc') as Hgc.
      destruct (decide (S (Z.to_nat middle) < length grains)%nat) as [Hin' | Hout].
      * destruct (lookup_lt_is_Some_2 grains (S (Z.to_nat middle)) Hin') as [c' Hc''].
        assert (Z.to_nat middle < S (Z.to_nat middle))%nat as Hs' by lia.
        pose proof (contiguous_end_le_start _ _ _ _ _ Hc Hs Hs' Hc' Hc'') as H1.
        assert (Z.to_nat middle <= S (Z.to_nat middle))%nat as Hs'' by lia.
        pose proof (sortedAscending_lookup _ _ _ _ _ Hs Hs'' Hc' Hc'') as H2.
        pose proof (adjacent_lookup _ _ _ _ _ Hc Hc' Hc'') as H3. simpl in H3. lia.
      * assert (last grains = Some c) as Hl.
        { rewrite last_lookup. rewrite <- Hc'. f_equal.
          apply lookup_lt_Some in Hc'. lia. }
        specialize (Hlast c Hl). lia.
    + (* the candidate contains the target *)
      destruct (decide (Z.to_nat middle <= n)%nat) as [Hle | Hgt].
      * destruct (decide (Z.to_nat middle = n)) as [<- | Hne]; [lia |].
        assert (Z.to_nat middle < n)%nat as Hlt' by lia.
        pose proof (contiguous_end_le_start _ _ _ _ _ Hc Hs Hlt' Hc' Hg). lia.
      * assert (n <= Z.to_nat middle)%nat as Hle by lia.
        pose proof (sortedAscending_lookup _ _ _ _ _ Hs Hle Hg Hc').
        assert (n < Z.to_nat middle)%nat as Hlt' by lia.
        pose proof (contiguous_end_le_start _ _ _ _ _ Hc Hs Hlt' Hg Hc'). lia.
Qed.

(** Contract of the search, first half: a grain that contains the target is
    found, with or without an upper bound above the target. *)
Lemma divisionBinarySearch_contains grains target (n : nat) g upperBound :
  contiguous grains -> sortedAscending grains ->
  grains !! n = Some g -> isInGrain target g = true ->
  (forall gl, last grains = Some gl -> target < end_ gl) ->
  (forall bound, upperBound = Some bound -> target < bound) ->
  divisionBinarySearch target grains upperBound = Z.of_nat n.
Proof.
  intros Hc Hs Hg Hin Hlast Hbound.
  pose proof (lookup_lt_Some _ _ _ Hg) as Hlt.
  assert (searchLoop (length grains) target grains 0 (len grains - 1) = Z.of_nat n)
    as Hsearch.
  { apply (searchLoop_finds grains target n g); try done; unfold len; lia. }
  unfold divisionBinarySearch. rewrite Hsearch.
  destruct upperBound as [bound |]; [| done].
  specialize (Hbound bound eq_refl).
  rewrite Z.geb_leb. destruct (Z.leb_spec bound target); [lia | done].
Qed.

(** Contract of the search, second half: the sentinel. *)
Lemma divisionBinarySearch_beyond grains target bound :
  bound <= target -> divisionBinarySearch target grains (Some bound) = -1.
Proof.
  intros H. unfold divisionBinarySearch.
  rewrite Z.geb_leb. destruct (Z.leb_spec bound target); [done | lia].
Qed.

(** Whatever the search returns is [-1] or the index of a grain. *)
Lemma searchLoop_range fuel target grains low high :
  0 <= low ->
  let r := searchLoop fuel target grains low high in
  r = -1 \/ 0 <= r < len grains.
Proof.
  revert low high. induction fuel as [| fuel IH]; intros low high Hlow; simpl; [by left |].
  destruct (Z.ltb_spec high low) as [| Hle]; [by left |].
  assert (low <= (low + high) / 2) as Hmid by (apply Z.div_le_lower_bound; lia).
  destruct (index grains ((low + high) / 2)) as [c |] eqn:Hc; [| by left].
  apply index_Some in Hc.
  destruct (start c >? target) eqn:E1; rewrite Z.gtb_ltb in E1; rewrite E1.
  - apply IH. lia.
  - destruct (target >=? end_ c); [apply IH; lia | right; tauto].
Qed.

Lemma divisionBinarySearch_range target grains upperBound :
  let r := divisionBinarySearch target grains upperBound in
  r = -1 \/ 0 <= r < len grains.
Proof.
  unfold divisionBinarySearch.
  pose proof (searchLoop_range (length grains) target grains 0 (len grains - 1)
                ltac:(lia)) as H.
  destruct upperBound as [bound |]; [| exact H].
  destruct (target >=? bound); [by left | exact H].
Qed.

(** A contiguous sequence has no gaps: every sample between the first start
    and the last end belongs to a grain. *)
Lemma contiguous_covers grains target first final :
  contiguous grains ->
  firstStart grains = Some first -> lastEnd grains = Some final ->
  first <= target < final ->
  exists (n : nat) g, grains !! n = Some g /\ isInGrain target g = true.
Proof.
  revert first. induction grains as [| a grains IH]; intros first Hc Hf Hl Ht; [done |].
  unfold firstStart in Hf. simpl in Hf. simplify_eq.
  destruct grains as [| b grains].
  - unfold lastEnd in Hl. simpl in Hl. simplify_eq.
    exists 0%nat, a. split; [done |]. apply isInGrain_spec. lia.
  - destruct (decide (target < end_ a)) as [Hlt | Hge].
    + exists 0%nat, a. split; [done |]. apply isInGrain_spec. lia.
    + destruct Hc as [Hab Hc].
      destruct (IH (start b) Hc eq_refl Hl ltac:(lia)) as (n & g & Hg & Hin).
      exists (S n), g. done.
Qed.

(** ** Splitting a sequence *)

Lemma firstStart_Some grains first :
  firstStart grains = Some first ->
  exists g, grains !! 0%nat = Some g /\ start g = first.
Proof.
  unfold firstStart. rewrite head_lookup.
  destruct (grains !! 0%nat) as [g |]; [| done]. intros [= <-]. by exists g.
Qed.

Lemma lastEnd_Some grains final :
  lastEnd grains = Some final ->
  exists g, last grains = Some g /\ end_ g = final.
Proof.
  unfold lastEnd. destruct (last grains) as [g |]; [| done].
  intros [= <-]. by exists g.
Qed.

Lemma nonempty_ends grains :
  grains <> [] -> exists first final,
    firstStart grains = Some first /\ lastEnd grains = Some final.
Proof.
  intros Hne. unfold firstStart, lastEnd.
  destruct grains as [| g grains]; [done |].
  destruct (last (g :: grains)) as [gl |] eqn:Hl.
  - by exists (start g), (end_ gl).
  - by apply last_None in Hl.
Qed.

(** The quick exit. *)
Lemma splitGrain_outside grains splitPoint first final :
  firstStart grains = Some first -> lastEnd grains = Some final ->
  splitPoint <= first \/ final - 1 <= splitPoint ->
  splitGrain grains splitPoint = Ok grains.
Proof.
  intros (g0 & Hg0 & <-)%firstStart_Some (gl & Hgl & <-)%lastEnd_Some Hout.
  unfold splitGrain.
  rewrite (element_first grains g0 Hg0), (element_last grains gl Hgl). simpl.
  rewrite Z.geb_leb.
  destruct (Z.leb_spec splitPoint (start g0)), (Z.leb_spec (end_ gl - 1) splitPoint);
    simpl; try done; lia.
Qed.

(** Past the quick exit the grain that contains the split point is replaced
    by what [splitGrainIntoTwo] makes of it. *)
Lemma splitGrain_inside grains splitPoint first final (n : nat) g :
  contiguous grains -> sortedAscending grains ->
  firstStart grains = Some first -> lastEnd grains = Some final ->
  first < splitPoint < final - 1 ->
  grains !! n = Some g -> isInGrain splitPoint g = true ->
  splitGrain grains splitPoint =
    Ok (take n grains ++ splitGrainIntoTwo g splitPoint ++ drop (S n) grains).
Proof.
  intros Hc Hs (g0 & Hg0 & <-)%firstStart_Some (gl & Hgl & <-)%lastEnd_Some
    Hp Hg Hin.
  pose proof (lookup_lt_Some _ _ _ Hg) as Hlt.
  unfold splitGrain.
  rewrite (element_first grains g0 Hg0), (element_last grains gl Hgl).
  cbn [bind]. rewrite Z.geb_leb.
  destruct (Z.leb_spec splitPoint (start g0)); [lia |].
  destruct (Z.leb_spec (end_ gl - 1) splitPoint); [lia |]. cbn [orb].
  rewrite (divisionBinarySearch_contains grains splitPoint n g None); try done.
  - rewrite (slice_single grains n g Hg). cbn [element index bind lookup].
    change (element [g] 0) with (Ok g). cbn [bind].
    rewrite slice_prefix by lia.
    replace (len grains - 1 + 1) with (len grains) by lia.
    replace (Z.of_nat n + 1) with (Z.of_nat (S n)) by lia.
    rewrite slice_suffix by lia. done.
  - intros gl' Hgl'. simplify_eq. lia.
Qed.

(** Both cases at once: a split either leaves the sequence alone or replaces
    one grain [g] by two grains that meet at the split point. *)
Lemma splitGrain_cases grains splitPoint :
  contiguous grains -> sortedAscending grains -> grains <> [] ->
  splitGrain grains splitPoint = Ok grains \/
  exists before g after,
    grains = before ++ g :: after /\
    start g < splitPoint < end_ g - 1 /\
    splitGrain grains splitPoint =
      Ok (before
            ++ {| start := start g; end_ := splitPoint; rest := rest g |}
            :: {| start := splitPoint; end_ := end_ g; rest := rest g |}
            :: after).
Proof.
  intros Hc Hs Hne.
  destruct (nonempty_ends grains Hne) as (first & final & Hf & Hl).
  destruct (decide (first < splitPoint < final - 1)) as [Hp | Hp].
  - destruct (contiguous_covers grains splitPoint first final Hc Hf Hl ltac:(lia))
      as (n & g & Hg & Hin).
    rewrite (splitGrain_inside grains splitPoint first final n g); try done.
    unfold splitGrainIntoTwo. rewrite Z.geb_leb.
    apply isInGrain_spec in Hin.
    destruct (Z.leb_spec splitPoint (start g)), (Z.leb_spec (end_ g - 1) splitPoint);
      simpl.
    1-3: left; f_equal; by apply take_drop_middle.
    right. exists (take n grains), g, (drop (S n) grains).
    split; [by rewrite take_drop_middle |]. split; [lia | done].
  - left. apply (splitGrain_outside grains splitPoint first final); [done | done | lia].
Qed.

Lemma adjacent_and R1 R2 grains :
  adjacent (fun g g' => R1 g g' /\ R2 g g') grains <->
  adjacent R1 grains /\ adjacent R2 grains.
Proof.
  induction grains as [| a grains IH]; [simpl; tauto |].
  destruct grains as [| b grains]; [simpl; tauto |].
  change (adjacent ?R (a :: b :: grains)) with (R a b /\ adjacent R (b :: grains)).
  tauto.
Qed.

Section Replace.
Variables (before after : list grain) (g : grain) (splitPoint : Z).
Hypothesis inside : start g < splitPoint < end_ g - 1.

Let old := before ++ g :: after.
Let new := before ++ leftHalf g splitPoint :: rightHalf g splitPoint :: after.

Lemma replace_invariant :
  contiguous old -> sortedAscending old ->
  contiguous new /\ sortedAscending new.
Proof using inside.
  intros Hc Hs. unfold contiguous, sortedAscending. apply adjacent_and.
  apply adjacent_replace with (g := g).
  - simpl. lia.
  - simpl. lia.
  - simpl. lia.
  - apply adjacent_and. done.
Qed.

Lemma replace_firstStart : firstStart new = firstStart old.
Proof. unfold firstStart, new, old. by destruct before. Qed.

Lemma replace_lastEnd : lastEnd new = lastEnd old.
Proof.
  unfold lastEnd, new, old.
  rewrite !last_app. destruct after as [| a after']; [done |].
  by rewrite !last_cons_cons.
Qed.

Lemma replace_wellFormed : Forall wellFormed old -> Forall wellFormed new.
Proof using inside.
  unfold old, new. rewrite !Forall_app, !Forall_cons. unfold wellFormed. simpl.
  intuition lia.
Qed.
End Replace.

(** C1 (invariant preservation).  For every non-empty grain sequence that is
    contiguous (each grain's end equals the next grain's start) and sorted
    ascending, and for every split point, [splitGrain] returns a sequence that
    is again contiguous and sorted ascending, whose first start and last end
    are those of the input; grains that were non-empty intervals stay so. *)
Theorem splitGrain_preserves_invariant (grains : list grain) (splitPoint : Z) :
  grains <> [] -> contiguous grains -> sortedAscending grains ->
  exists newGrains,
    splitGrain grains splitPoint = Ok newGrains /\
    contiguous newGrains /\ sortedAscending newGrains /\
    firstStart newGrains = firstStart grains /\
    lastEnd newGrains = lastEnd grains /\
    (Forall wellFormed grains -> Forall wellFormed newGrains).
Proof.
  intros Hne Hc Hs.
  destruct (splitGrain_cases grains splitPoint Hc Hs Hne)
    as [Hsame | (before & g & after & -> & Hp & Hsplit)].
  - (* quick exit, or a split point on an edge sample of its grain *)
    exists grains. done.
  - (* the grain [g] is cut in two *)
    eexists. split; [exact Hsplit |].
    destruct (replace_invariant before after g splitPoint Hp Hc Hs) as [Hc' Hs'].
    split; [exact Hc' |]. split; [exact Hs' |].
    split; [apply replace_firstStart |]. split; [apply replace_lastEnd |].
    by apply replace_wellFormed.
Qed.

(** C2 (single-grain split).  If the split point is at or before the grain's
    start, or at or after its last sample [end - 1], [splitGrainIntoTwo]
    returns the grain alone and unchanged; otherwise it returns exactly two
    grains, the left one from the grain's start to the split point and the
    right one from the split point to the grain's end, both with all the
    other properties of the grain. *)
Theorem splitGrainIntoTwo_contract (g : grain) (splitPoint : Z) :
  (splitPoint <= start g \/ splitPoint >= end_ g - 1 ->
   splitGrainIntoTwo g splitPoint = [g]) /\
  (~ (splitPoint <= start g \/ splitPoint >= end_ g - 1) ->
   exists left right,
     splitGrainIntoTwo g splitPoint = [left; right] /\
     start left = start g /\ end_ left = splitPoint /\
     start right = splitPoint /\ end_ right = end_ g /\
     rest left = rest g /\ rest right = rest g /\
     forall key, rest left !! key = rest g !! key /\
                 rest right !! key = rest g !! key).
Proof.
  unfold splitGrainIntoTwo. rewrite Z.geb_leb.
  destruct (Z.leb_spec splitPoint (start g)), (Z.leb_spec (end_ g - 1) splitPoint);
    simpl; (split; [intros Hout | intros Hin]); try done; try lia.
  eexists _, _. split; [reflexivity |]. simpl. done.
Qed.

(** Splitting again at the same point changes nothing, wherever the point
    is. *)
Lemma splitGrain_again grains splitPoint once :
  grains <> [] -> contiguous grains -> sortedAscending grains ->
  splitGrain grains splitPoint = Ok once ->
  splitGrain once splitPoint = Ok once.
Proof.
  intros Hne Hc Hs Hsplit.
  destruct (nonempty_ends grains Hne) as (first & final & Hf & Hl).
  destruct (splitGrain_cases grains splitPoint Hc Hs Hne)
    as [Hsame | (before & g & after & -> & Hp & Hsplit')].
  { congruence. }
  rewrite Hsplit' in Hsplit. injection Hsplit as <-.
  destruct (decide (first < splitPoint < final - 1)) as [Hin | Hout].
  2: { rewrite (splitGrain_outside _ splitPoint first final Hf Hl) in Hsplit'
         by lia.
       injection Hsplit' as Heq. apply (f_equal length) in Heq.
       rewrite !length_app in Heq. simpl in Heq. lia. }
  destruct (replace_invariant before after g splitPoint Hp Hc Hs) as [Hc' Hs'].
  set (once := before ++ leftHalf g splitPoint :: rightHalf g splitPoint :: after)
    in *.
  change (splitGrain once splitPoint = Ok once).
  assert (once !! S (length before) = Some (rightHalf g splitPoint)) as Hr.
  { unfold once. rewrite lookup_app_r by lia.
    replace (S (length before) - length before)%nat with 1%nat by lia. done. }
  rewrite (splitGrain_inside once splitPoint first final (S (length before))
             (rightHalf g splitPoint)); try done.
  - f_equal. rewrite <- (take_drop_middle once _ _ Hr) at 3.
    unfold splitGrainIntoTwo. simpl.
    destruct (Z.leb_spec splitPoint splitPoint); [done | lia].
  - unfold once. by rewrite (replace_firstStart before after g splitPoint).
  - unfold once. by rewrite (replace_lastEnd before after g splitPoint).
  - apply isInGrain_spec. simpl. lia.
Qed.

(** C4 (split idempotence).  For a non-empty contiguous sorted sequence and a
    point strictly inside the track's effective range, splitting at the point
    and splitting the result at the same point again gives what the first
    split gave: the second split is a no-op, the point being by then the
    first or the last sample of the grain that contains it. *)
Theorem splitGrain_idempotent (grains : list grain) (splitPoint first final : Z) :
  grains <> [] -> contiguous grains -> sortedAscending grains ->
  firstStart grains = Some first -> lastEnd grains = Some final ->
  first < splitPoint < final - 1 ->
  exists once,
    splitGrain grains splitPoint = Ok once /\
    (let* again := splitGrain grains splitPoint in splitGrain again splitPoint)
      = splitGrain grains splitPoint /\
    splitGrain once splitPoint = Ok once /\
    exists g, g ∈ once /\ isInGrain splitPoint g = true /\
      (splitPoint = start g \/ splitPoint = end_ g - 1).
Proof.
  intros Hne Hc Hs Hf Hl Hp.
  assert (exists once, splitGrain grains splitPoint = Ok once) as [once Hsplit].
  { destruct (splitGrain_cases grains splitPoint Hc Hs Hne)
      as [Hsame | (before & g & after & _ & _ & Hsplit)]; eauto. }
  pose proof (splitGrain_again grains splitPoint once Hne Hc Hs Hsplit) as Hagain.
  exists once. split; [done |]. split; [by rewrite Hsplit |]. split; [done |].
  destruct (splitGrain_cases grains splitPoint Hc Hs Hne)
    as [Hsame | (before & g & after & -> & Hg & Hsplit')].
  - assert (once = grains) as -> by congruence.
    destruct (contiguous_covers grains splitPoint first final Hc Hf Hl ltac:(lia))
      as (n & g & Hg & Hin).
    exists g. split; [by eapply list_elem_of_lookup_2 |]. split; [done |].
    rewrite (splitGrain_inside grains splitPoint first final n g) in Hsame
      by done.
    injection Hsame as Heq.
    rewrite <- (take_drop_middle grains n g Hg) in Heq at 3.
    apply app_inv_head in Heq.
    unfold splitGrainIntoTwo in Heq. rewrite Z.geb_leb in Heq.
    apply isInGrain_spec in Hin.
    destruct (Z.leb_spec splitPoint (start g)), (Z.leb_spec (end_ g - 1) splitPoint);
      simpl in Heq; try lia.
    apply (f_equal length) in Heq. simpl in Heq. lia.
  - rewrite Hsplit' in Hsplit. injection Hsplit as <-.
    exists (rightHalf g splitPoint).
    split; [| split; [apply isInGrain_spec; simpl; lia | by left]].
    apply elem_of_app. right. apply elem_of_cons. right.
    apply elem_of_cons. by left.
Qed.

(** ** Grains in view *)

Lemma grainIndexesInView_unfold grains v gl :
  last grains = Some gl ->
  grainIndexesInView grains v =
    Ok {| startIndex := divisionBinarySearch (vstart v) grains (Some (end_ gl));
          endIndex :=
            if divisionBinarySearch (vend v) grains (Some (end_ gl)) =? -1
            then len grains - 1
            else divisionBinarySearch (vend v) grains (Some (end_ gl)) |}.
Proof.
  intros Hl. unfold grainIndexesInView. by rewrite (element_last grains gl Hl).
Qed.

Lemma nonempty_last (grains : list grain) :
  grains <> [] -> exists gl, last grains = Some gl.
Proof.
  intros Hne. destruct (last grains) as [gl |] eqn:Hl; [by exists gl |].
  by apply last_None in Hl.
Qed.

(** The end index is always the index of a grain. *)
Lemma grainIndexesInView_endIndex grains v ix :
  grainIndexesInView grains v = Ok ix -> 0 <= endIndex ix < len grains.
Proof.
  intros Hix. destruct (last grains) as [gl |] eqn:Hl.
  - rewrite (grainIndexesInView_unfold grains v gl Hl) in Hix.
    injection Hix as <-. simpl.
    assert (0 < len grains).
    { unfold len. destruct grains; [done | simpl; lia]. }
    pose proof (divisionBinarySearch_range (vend v) grains (Some (end_ gl))) as Hr.
    cbv zeta in Hr.
    destruct (Z.eqb_spec (divisionBinarySearch (vend v) grains (Some (end_ gl))) (-1));
      lia.
  - apply last_None in Hl. subst. done.
Qed.

(** What [whichGrainsToShow] returns in terms of the two indices. *)
Lemma whichGrainsToShow_unfold grains v ix first final :
  grainIndexesInView grains v = Ok ix ->
  index grains (startIndex ix) = Some first ->
  index grains (endIndex ix) = Some final ->
  whichGrainsToShow grains v =
    Ok (createFillerGrain (vstart v) (start first) (negb (startIndex ix =? 0))
          :: slice grains (startIndex ix) (endIndex ix + 1)
          ++ [createFillerGrain (end_ final) (vend v)
                (negb (len grains - 1 =? endIndex ix))]).
Proof.
  intros Hix Hf Hl. unfold whichGrainsToShow, element.
  rewrite Hix. cbn [bind]. rewrite Hf. cbn [bind]. by rewrite Hl.
Qed.

(** A result of [whichGrainsToShow] always has the shape just given. *)
Lemma whichGrainsToShow_inv grains v shown :
  whichGrainsToShow grains v = Ok shown ->
  exists ix first final,
    grainIndexesInView grains v = Ok ix /\
    index grains (startIndex ix) = Some first /\
    index grains (endIndex ix) = Some final /\
    shown =
      createFillerGrain (vstart v) (start first) (negb (startIndex ix =? 0))
        :: slice grains (startIndex ix) (endIndex ix + 1)
        ++ [createFillerGrain (end_ final) (vend v)
              (negb (len grains - 1 =? endIndex ix))].
Proof.
  unfold whichGrainsToShow, element.
  destruct (grainIndexesInView grains v) as [ix |] eqn:Hix; [| done]. cbn [bind].
  destruct (index grains (startIndex ix)) as [first |] eqn:Hf; [| done]. cbn [bind].
  destruct (index grains (endIndex ix)) as [final |] eqn:Hl; [| done]. cbn [bind].
  intros [= <-]. by exists ix, first, final.
Qed.

Lemma createFillerGrain_flags s e more :
  rest (createFillerGrain s e more) !! "filler" = Some (JBool true) /\
  rest (createFillerGrain s e more) !! "more" = Some (JBool more).
Proof. unfold createFillerGrain. simpl. by simplify_map_eq. Qed.

Lemma index_in_range {A : Type} (arr : list A) (i : Z) :
  0 <= i < len arr -> exists a, index arr i = Some a.
Proof.
  intros Hi. unfold index, len in *. destruct (Z.ltb_spec i 0); [lia |].
  apply lookup_lt_is_Some_2. lia.
Qed.

(** C5 (more flags).  For every non-empty grain sequence and every view,
    [grainIndexesInView] yields a start and an end index.  Whenever the grain
    array has an element at the start index, [whichGrainsToShow] returns a
    result: a start filler, the grains from the start index to the end index,
    and an end filler.  Both fillers carry [filler = true], the start filler
    carries [more = true] exactly when the start index is not [0], and the end
    filler exactly when the end index is not the index of the last grain.
    When there is no element at the start index, [whichGrainsToShow] throws on
    reading it, so these are all the results it has. *)
Theorem whichGrainsToShow_more_flags (grains : list grain) (v : view) :
  grains <> [] ->
  exists ix,
    grainIndexesInView grains v = Ok ix /\
    (index grains (startIndex ix) = None ->
     whichGrainsToShow grains v = Throw (TypeError (startIndex ix))) /\
    (forall first,
       index grains (startIndex ix) = Some first ->
       exists startFiller real endFiller,
         whichGrainsToShow grains v = Ok (startFiller :: real ++ [endFiller]) /\
         real = slice grains (startIndex ix) (endIndex ix + 1) /\
         rest startFiller !! "filler" = Some (JBool true) /\
         (rest startFiller !! "more" = Some (JBool true)
            <-> startIndex ix <> 0) /\
         (rest startFiller !! "more" = Some (JBool false)
            <-> startIndex ix = 0) /\
         rest endFiller !! "filler" = Some (JBool true) /\
         (rest endFiller !! "more" = Some (JBool true)
            <-> endIndex ix <> len grains - 1) /\
         (rest endFiller !! "more" = Some (JBool false)
            <-> endIndex ix = len grains - 1)).
Proof.
  intros Hne. destruct (nonempty_last grains Hne) as [gl Hl].
  pose proof (grainIndexesInView_unfold grains v gl Hl) as Hix.
  set (ix := {| startIndex := _; endIndex := _ |}) in Hix.
  exists ix. split; [exact Hix |]. split.
  - (* no element at the start index: the read of its [start] throws *)
    intros Hnone. unfold whichGrainsToShow, element.
    rewrite Hix. cbn [bind]. by rewrite Hnone.
  - (* an element at the start index: the end index always has one *)
    intros first Hfirst.
    destruct (index_in_range grains (endIndex ix)
                (grainIndexesInView_endIndex grains v ix Hix)) as [final Hfinal].
    rewrite (whichGrainsToShow_unfold grains v ix first final Hix Hfirst Hfinal).
    eexists _, _, _. split; [reflexivity |]. split; [done |].
    repeat match goal with
           | |- context [rest (createFillerGrain ?s ?e ?m) !! _] =>
               destruct (createFillerGrain_flags s e m) as [-> ->]
           end.
    split; [done |].
    split; [| split; [| split; [done |]]].
    + destruct (Z.eqb_spec (startIndex ix) 0) as [-> | Hne0];
        simpl; split; try done; try congruence.
    + destruct (Z.eqb_spec (startIndex ix) 0) as [-> | Hne0];
        simpl; split; try done; try congruence.
    + destruct (Z.eqb_spec (len grains - 1) (endIndex ix)) as [Heq | Hneq];
        simpl; (split; split); try done; try congruence.
Qed.

(** C6 (sentinel fallback for the end index).  For every non-empty grain
    sequence and every view whose end is at or beyond the track's total
    length, the bounded search for the end returns the sentinel [-1], and
    [grainIndexesInView] returns the index of the last grain as the end
    index: it neither throws nor returns the sentinel. *)
Theorem grainIndexesInView_end_clamped (grains : list grain) (v : view)
    (trackLength : Z) :
  grains <> [] -> lastEnd grains = Some trackLength -> trackLength <= vend v ->
  divisionBinarySearch (vend v) grains (Some trackLength) = -1 /\
  exists ix,
    grainIndexesInView grains v = Ok ix /\
    endIndex ix = len grains - 1 /\
    endIndex ix <> -1 /\
    index grains (endIndex ix) = last grains.
Proof.
  intros Hne (gl & Hl & <-)%lastEnd_Some Hend.
  pose proof (divisionBinarySearch_beyond grains (vend v) (end_ gl) Hend) as Hs.
  split; [done |]. eexists. split; [by apply grainIndexesInView_unfold |].
  cbn [endIndex]. rewrite Hs. simpl.
  assert (0 < len grains) by (unfold len; destruct grains; [done | simpl; lia]).
  split; [done |]. split; [lia |].
  replace (len grains - 1) with (Z.of_nat (Nat.pred (length grains)))
    by (unfold len in *; lia).
  by rewrite index_nat, last_lookup.
Qed.

(** C8 (no fallback for the start index).  For every non-empty grain sequence
    and every view whose start is at or beyond the track's total length,
    [grainIndexesInView] returns the sentinel [-1] as the start index, no grain
    has that index, and [whichGrainsToShow] throws on reading the [start] of
    the element at index [-1] when it builds the start filler. *)
Theorem whichGrainsToShow_start_beyond_track (grains : list grain) (v : view)
    (trackLength : Z) :
  grains <> [] -> lastEnd grains = Some trackLength -> trackLength <= vstart v ->
  exists ix,
    grainIndexesInView grains v = Ok ix /\
    startIndex ix = -1 /\
    index grains (startIndex ix) = None /\
    whichGrainsToShow grains v = Throw (TypeError (-1)).
Proof.
  intros Hne (gl & Hl & <-)%lastEnd_Some Hstart.
  pose proof (divisionBinarySearch_beyond grains (vstart v) (end_ gl) Hstart) as Hs.
  pose proof (grainIndexesInView_unfold grains v gl Hl) as Hix.
  eexists. split; [exact Hix |]. cbn [startIndex]. rewrite Hs.
  split; [done |]. split; [done |].
  unfold whichGrainsToShow. rewrite Hix. cbn [bind startIndex]. by rewrite Hs.
Qed.

(** For a view that starts inside the track, the grains shown run from the
    grain that contains the view's start to the grain that contains the view's
    end, or to the last grain when the view ends at or beyond the track's
    end. *)
Lemma whichGrainsToShow_inside grains v first final :
  contiguous grains -> sortedAscending grains ->
  firstStart grains = Some first -> lastEnd grains = Some final ->
  first <= vstart v < final -> first <= vend v ->
  exists (n m : nat) g g',
    grains !! n = Some g /\ isInGrain (vstart v) g = true /\
    grains !! m = Some g' /\
    (vend v < final -> isInGrain (vend v) g' = true) /\
    (final <= vend v -> last grains = Some g') /\
    whichGrainsToShow grains v =
      Ok (createFillerGrain (vstart v) (start g) (negb (Z.of_nat n =? 0))
            :: slice grains (Z.of_nat n) (Z.of_nat m + 1)
            ++ [createFillerGrain (end_ g') (vend v)
                  (negb (len grains - 1 =? Z.of_nat m))]).
Proof.
  intros Hc Hs Hf Hl Hstart Hend.
  destruct (lastEnd_Some grains final Hl) as (gl & Hgl & <-).
  destruct (contiguous_covers grains (vstart v) first (end_ gl) Hc Hf Hl Hstart)
    as (n & g & Hg & Hin).
  assert (divisionBinarySearch (vstart v) grains (Some (end_ gl)) = Z.of_nat n)
    as Hsn.
  { apply (divisionBinarySearch_contains grains (vstart v) n g); try done.
    - intros gl' ?. simplify_eq. lia.
    - intros b [= <-]. lia. }
  pose proof (grainIndexesInView_unfold grains v gl Hgl) as Hix.
  rewrite Hsn in Hix.
  destruct (decide (vend v < end_ gl)) as [Hlt | Hge].
  - destruct (contiguous_covers grains (vend v) first (end_ gl) Hc Hf Hl ltac:(lia))
      as (m & g' & Hg' & Hin').
    assert (divisionBinarySearch (vend v) grains (Some (end_ gl)) = Z.of_nat m)
      as Hsm.
    { apply (divisionBinarySearch_contains grains (vend v) m g'); try done.
      - intros gl' ?. simplify_eq. lia.
      - intros b [= <-]. lia. }
    rewrite Hsm in Hix.
    destruct (Z.eqb_spec (Z.of_nat m) (-1)) as [| _]; [lia |].
    exists n, m, g, g'. repeat (split; [done || lia |]).
    rewrite (whichGrainsToShow_unfold grains v _ g g' Hix); cbn [startIndex endIndex];
      [done | by rewrite index_nat | by rewrite index_nat].
  - rewrite (divisionBinarySearch_beyond grains (vend v) (end_ gl)) in Hix by lia.
    simpl in Hix.
    pose proof Hgl as Hgl'. rewrite last_lookup in Hgl'.
    assert (len grains - 1 = Z.of_nat (Nat.pred (length grains))) as Hlast.
    { apply lookup_lt_Some in Hg. unfold len. lia. }
    rewrite Hlast in Hix.
    exists n, (Nat.pred (length grains)), g, gl. repeat (split; [done || lia |]).
    rewrite (whichGrainsToShow_unfold grains v _ g gl Hix); cbn [startIndex endIndex];
      [by rewrite Hlast | by rewrite index_nat | by rewrite index_nat].
Qed.

Lemma exampleGrains_shown :
  whichGrainsToShow exampleGrains exampleView =
    Ok (createFillerGrain 5 0 false
          :: exampleGrains ++ [createFillerGrain 30 25 false]).
Proof. reflexivity. Qed.

(** C7 (negative-length fillers).  There is a valid non-empty grain sequence
    and a view inside the track's bounds, with start and end strictly inside
    grains, for which both fillers returned by [whichGrainsToShow] end before
    they start.  In general, for a view that starts inside the track, the
    start filler runs from the view's start to the start of the grain that
    contains the view's start, so it has negative length whenever the view
    starts strictly inside a grain; and the end filler has negative length
    whenever the view ends before the track does. *)
Theorem whichGrainsToShow_negative_fillers :
  (exists grains v first final startFiller real endFiller gs ge,
     grains <> [] /\ contiguous grains /\ sortedAscending grains /\
     Forall wellFormed grains /\
     firstStart grains = Some first /\ lastEnd grains = Some final /\
     first <= vstart v /\ vstart v < vend v /\ vend v <= final /\
     gs ∈ grains /\ start gs < vstart v < end_ gs /\
     ge ∈ grains /\ start ge < vend v < end_ ge /\
     whichGrainsToShow grains v = Ok (startFiller :: real ++ [endFiller]) /\
     end_ startFiller < start startFiller /\
     end_ endFiller < start endFiller) /\
  (forall grains v first final,
     contiguous grains -> sortedAscending grains ->
     firstStart grains = Some first -> lastEnd grains = Some final ->
     first <= vstart v < final -> vstart v < vend v ->
     exists startFiller real endFiller g,
       whichGrainsToShow grains v = Ok (startFiller :: real ++ [endFiller]) /\
       g ∈ grains /\ isInGrain (vstart v) g = true /\
       start startFiller = vstart v /\ end_ startFiller = start g /\
       (start g < vstart v -> end_ startFiller < start startFiller) /\
       (vend v < final -> end_ endFiller < start endFiller)).
Proof.
  split.
  - exists exampleGrains, exampleView, 0, 30.
    eexists _, _, _, {| start := 0; end_ := 10; rest := empty |},
      {| start := 20; end_ := 30; rest := empty |}.
    split; [done |]. split; [evaluate |]. split; [evaluate |].
    split; [repeat constructor; evaluate |].
    split; [done |]. split; [done |]. simpl.
    split; [lia |]. split; [lia |]. split; [lia |].
    split; [unfold exampleGrains; set_solver |]. split; [lia |].
    split; [unfold exampleGrains; set_solver |]. split; [lia |].
    split; [apply exampleGrains_shown |]. simpl. lia.
  - intros grains v first final Hc Hs Hf Hl Hstart Hlt.
    destruct (whichGrainsToShow_inside grains v first final Hc Hs Hf Hl Hstart
                ltac:(lia))
      as (n & m & g & g' & Hg & Hin & Hg' & Hin' & _ & Hshown).
    eexists _, _, _, g. split; [exact Hshown |].
    split; [by eapply list_elem_of_lookup_2 |]. split; [done |].
    simpl. split; [done |]. split; [done |]. split; [lia |].
    intros Hend. specialize (Hin' Hend). apply isInGrain_spec in Hin'. lia.
Qed.

(** C3 (view reconstruction coverage), evaluated where it fails.  On the
    three-grain track and the view [[5, 25)], which lies inside the track,
    [whichGrainsToShow] returns the start filler [[5, 0)], the three grains
    and the end filler [[30, 25)]: one filler at each end and the real grains
    in their order, but the fillers have negative length and the grains shown
    cover the samples [[0, 30)], for instance sample [2], which is not in the
    view; so the samples covered are not exactly those of the view. *)
Theorem whichGrainsToShow_span_exceeds_view :
  exists shown,
    whichGrainsToShow exampleGrains exampleView = Ok shown /\
    shown = createFillerGrain 5 0 false
              :: exampleGrains ++ [createFillerGrain 30 25 false] /\
    covers shown 2 = true /\
    ~ (vstart exampleView <= 2 < vend exampleView) /\
    ~ (forall sample,
         covers shown sample = true <->
         vstart exampleView <= sample < vend exampleView).
Proof.
  eexists. split; [apply exampleGrains_shown |]. split; [done |].
  split; [reflexivity |]. split; [simpl; lia |].
  intros Hall. specialize (Hall 2). simpl in Hall.
  destruct Hall as [Hall _]. specialize (Hall eq_refl). lia.
Qed.

(** ** Equally spaced grains *)

Lemma Math_ceil_div_spec a b :
  0 < b -> (Math_ceil_div a b - 1) * b < a <= Math_ceil_div a b * b.
Proof.
  intros Hb. unfold Math_ceil_div.
  pose proof (Z.div_mod (- a) b ltac:(lia)).
  pose proof (Z.mod_pos_bound (- a) b Hb). nia.
Qed.

Lemma adjacent_of_lookup R grains :
  (forall (n : nat) g g',
     grains !! n = Some g -> grains !! S n = Some g' -> R g g') ->
  adjacent R grains.
Proof.
  induction grains as [| a grains IH]; intros HR; [done |].
  destruct grains as [| b grains]; [done |].
  split; [by apply (HR 0%nat) |].
  apply IH. intros n g g' Hg Hg'. by apply (HR (S n)).
Qed.

Lemma logicalSegment_lookup {D : Type} (data : list D) grainLength (k : nat) g :
  logicalSegment data grainLength !! k = Some g <->
  Z.of_nat k < Math_ceil_div (len data) grainLength /\
  g = {| start := Z.of_nat k * grainLength;
         end_ := Z.min ((Z.of_nat k + 1) * grainLength) (len data);
         rest := empty |}.
Proof.
  unfold logicalSegment, range. rewrite list_lookup_fmap, fmap_Some.
  setoid_rewrite lookup_seqZ. split.
  - intros (x & [-> Hk] & ->). split; [done |]. by rewrite Z.add_0_l.
  - intros [Hk ->]. exists (Z.of_nat k). by rewrite Z.add_0_l.
Qed.

Lemma logicalSegment_length {D : Type} (data : list D) grainLength :
  length (logicalSegment data grainLength)
  = Z.to_nat (Math_ceil_div (len data) grainLength).
Proof. unfold logicalSegment, range. by rewrite length_fmap, length_seqZ. Qed.

(** C10 (equally spaced partition).  For a data array of [sampleCount]
    samples and a positive duration that converts to a positive grain length,
    [createEquallySpacedGrains] returns [ceil(sampleCount / grainLength)]
    grains; the [k]-th starts at [k * grainLength], every grain but the last
    has exactly the grain length, the last one ends at [sampleCount] and is
    non-empty and no longer than the grain length (of full length exactly
    when [sampleCount] is a multiple of it); the grains carry no
    property besides [start] and [end]; and the sequence is contiguous, sorted
    ascending, made of non-empty intervals and spans [[0, sampleCount)]. *)
Theorem createEquallySpacedGrains_partition {D : Type}
    (secondsToSamples : Q -> Z) (data : list D) (secondsPerGrain : Q) :
  (0 < secondsPerGrain)%Q -> 0 < secondsToSamples secondsPerGrain ->
  let grainLength := secondsToSamples secondsPerGrain in
  let sampleCount := len data in
  let grains := createEquallySpacedGrains secondsToSamples data secondsPerGrain in
  len grains = Math_ceil_div sampleCount grainLength /\
  (forall (k : nat) g,
     grains !! k = Some g ->
     start g = Z.of_nat k * grainLength /\
     rest g = empty /\
     ((S k < length grains)%nat -> end_ g = start g + grainLength) /\
     (S k = length grains ->
      end_ g = sampleCount /\ 0 < end_ g - start g <= grainLength /\
      end_ g - start g =
        if sampleCount mod grainLength =? 0 then grainLength
        else sampleCount mod grainLength)) /\
  contiguous grains /\ sortedAscending grains /\ Forall wellFormed grains /\
  (data <> [] ->
   firstStart grains = Some 0 /\ lastEnd grains = Some sampleCount) /\
  (data = [] -> grains = []).
Proof.
  intros _ Hpos grainLength sampleCount grains.
  unfold createEquallySpacedGrains in grains. fold grainLength in grains.
  pose proof (Math_ceil_div_spec sampleCount grainLength Hpos) as Hceil.
  pose proof (logicalSegment_length data grainLength) as Hlen.
  fold sampleCount grains in Hlen.
  set (count := Math_ceil_div sampleCount grainLength) in *.
  assert (0 <= sampleCount) as Hcount by (unfold sampleCount, len; lia).
  assert (0 <= count) as Hcount' by nia.
  assert (forall (k : nat) g, grains !! k = Some g ->
            Z.of_nat k < count /\
            start g = Z.of_nat k * grainLength /\
            end_ g = Z.min ((Z.of_nat k + 1) * grainLength) sampleCount /\
            rest g = empty) as Hlookup.
  { intros k g [Hk ->]%logicalSegment_lookup. done. }
  split; [unfold len; lia |]. split; [| split; [| split; [| split; [| split]]]].
  - intros k g (Hk & Hs & He & Hr)%Hlookup.
    split; [done |]. split; [done |]. rewrite Hs, He. split.
    + intros Hlt. rewrite Z.min_l; [lia | nia].
    + intros Hlast. rewrite Z.min_r by nia.
      split; [done |]. assert (Z.of_nat k = count - 1) as -> by lia.
      split; [nia |].
      pose proof (Z.div_mod sampleCount grainLength ltac:(lia)) as Hdiv.
      pose proof (Z.mod_pos_bound sampleCount grainLength Hpos) as Hmod.
      set (q := sampleCount / grainLength) in *.
      assert (count - 1 <= q) as Hlow.
      { apply Z.lt_succ_r. apply (Z.mul_lt_mono_pos_r grainLength); lia. }
      assert (q <= count) as Hhigh.
      { apply (Z.mul_le_mono_pos_r _ _ grainLength); lia. }
      destruct (Z.eqb_spec (sampleCount mod grainLength) 0) as [Hexact | Hrest].
      * assert (q = count) as <-; [| lia].
        destruct (decide (q = count)); [done |].
        assert (q = count - 1) as Hq by lia. rewrite Hq in Hdiv. lia.
      * assert (q = count - 1) as ->; [| lia].
        destruct (decide (q = count)) as [Hq |]; [| lia].
        rewrite Hq in Hdiv. lia.
  - apply adjacent_of_lookup. intros n g g' Hg Hg'.
    apply Hlookup in Hg as (Hk & Hs & He & _).
    apply Hlookup in Hg' as (Hk' & Hs' & _ & _).
    rewrite He, Hs'. rewrite Z.min_l; [lia | nia].
  - apply adjacent_of_lookup. intros n g g' Hg Hg'.
    apply Hlookup in Hg as (Hk & Hs & _ & _).
    apply Hlookup in Hg' as (Hk' & Hs' & _ & _). nia.
  - apply Forall_lookup. intros k g (Hk & Hs & He & _)%Hlookup.
    unfold wellFormed. rewrite Hs, He. apply Z.min_glb_lt; nia.
  - intros Hne.
    assert (0 < sampleCount).
    { unfold sampleCount, len. destruct data; [done | simpl; lia]. }
    assert (0 < count) as Hc by nia.
    assert (grains !! 0%nat = Some {| start := 0; end_ := Z.min grainLength sampleCount;
                                      rest := empty |}) as H0.
    { apply logicalSegment_lookup. split; [done |]. f_equal. lia. }
    assert (grains !! Nat.pred (length grains)
            = Some {| start := (count - 1) * grainLength; end_ := sampleCount;
                      rest := empty |}) as Hl.
    { apply logicalSegment_lookup. fold sampleCount count. split; [lia |].
      replace (Z.of_nat (Nat.pred (length grains))) with (count - 1) by lia.
      f_equal. rewrite Z.min_r; [done | nia]. }
    unfold firstStart, lastEnd. rewrite head_lookup, last_lookup, H0, Hl. done.
  - intros ->. apply nil_length_inv. rewrite Hlen.
    unfold sampleCount, len in Hceil. simpl in Hceil. nia.
Qed.

(** ** Sample cases *)

Section SampleCaseFacts.
Variable rng : Type.
Variable random : Z -> Z -> rng -> Z * rng.

(** The contract of [random]: an integer in [[low, high)]. *)
Hypothesis random_in_range :
forall low high s, low < high -> low <= fst (random low high s) < high.

Lemma drawEach_length indexes low high s :
length (fst (drawEach rng random indexes low high s)) = length indexes.
Proof.
revert s. induction indexes as [| i indexes IH]; intros s; [done |].
simpl. destruct (random low high s) as [x s1].
specialize (IH s1). destruct (drawEach rng random indexes low high s1).
simpl in *. by rewrite IH.
Qed.

Lemma drawEach_in_range indexes low high s :
low < high ->
Forall (fun x => low <= x < high) (fst (drawEach rng random indexes low high s)).
Proof using random_in_range.
intros Hlt. revert s. induction indexes as [| i indexes IH]; intros s; [done |].
simpl. pose proof (random_in_range low high s Hlt) as Hx.
destruct (random low high s) as [x s1].
specialize (IH s1). destruct (drawEach rng random indexes low high s1).
simpl in *. by constructor.
Qed.

(** A callback that succeeds on every element makes [mapIndexed] succeed, and
  what it establishes between an element and its image holds position by
  position. *)
Lemma mapIndexed_Forall2 {A B : Type} (P : A -> B -> Prop)
  (f : A -> Z -> rng -> result (B * rng)) (arr : list A) (i : Z) (s : rng) :
(forall (k : nat) a s,
   arr !! k = Some a ->
   exists b s', f a (i + Z.of_nat k) s = Ok (b, s') /\ P a b) ->
exists bs s', mapIndexed rng f arr i s = Ok (bs, s') /\ Forall2 P arr bs.
Proof.
revert i s. induction arr as [| a arr IH]; intros i s Hf.
- exists [], s. done.
- destruct (Hf 0%nat a s eq_refl) as (b & s1 & Hb & HP).
  rewrite Z.add_0_r in Hb.
  destruct (IH (i + 1) s1) as (bs & s2 & Hbs & HPs).
  { intros k a' s' Ha'. destruct (Hf (S k) a' s' Ha') as (b' & s'' & Hb' & HP').
    exists b', s''. split; [| done]. rewrite <- Hb'. f_equal. lia. }
  exists (b :: bs), s2. simpl. rewrite Hb. simpl. rewrite Hbs. simpl.
  split; [done |]. by constructor.
Qed.

Lemma createSampleCases_Forall2 grains data caseRate s :
0 < caseRate -> Forall (fun g => start g <= end_ g) grains ->
exists cases s',
  createSampleCases rng random grains data caseRate s = Ok (cases, s') /\
  Forall2 (casesOf data caseRate) grains cases.
Proof using random_in_range.
intros Hrate Hwf. unfold createSampleCases.
apply mapIndexed_Forall2. intros k g s0 Hg.
rewrite Z.add_0_l. unfold element. rewrite index_nat.
unfold grainLengths. rewrite !list_lookup_fmap, Hg. simpl.
set (count := Math_ceil_div (end_ g - start g) caseRate).
pose proof (Math_ceil_div_spec (end_ g - start g) caseRate Hrate) as Hceil.
fold count in Hceil.
pose proof (Forall_lookup_1 _ _ _ _ Hwf Hg) as Hg'. simpl in Hg'.
pose proof (drawEach_length (range count) (start g) (end_ g) s0) as Hlen.
destruct (decide (start g < end_ g)) as [Hlt | Heq].
- pose proof (drawEach_in_range (range count) (start g) (end_ g) s0 Hlt) as Hin.
  destruct (drawEach rng random (range count) (start g) (end_ g) s0)
    as [casesIndexes s1].
  eexists _, s1. split; [reflexivity |]. simpl in *. split.
  + rewrite !length_fmap, Hlen. unfold range. rewrite length_seqZ. nia.
  + intros value Hvalue.
    apply list_elem_of_fmap in Hvalue as (signed & -> & Hsigned).
    apply list_elem_of_fmap in Hsigned as (j & -> & Hj).
    rewrite Forall_forall in Hin. specialize (Hin j Hj).
    exists j. split; [done |]. split; [done |]. intros H0 Hend.
    unfold index. destruct (Z.ltb_spec j 0); [lia |].
    destruct (lookup_lt_is_Some_2 data (Z.to_nat j)) as [sample Hsample].
    { unfold len in Hend. lia. }
    exists sample. by rewrite Hsample.
- assert (count = 0) as Hzero by nia.
  rewrite Hzero in *. simpl in *.
  eexists _, s0. split; [reflexivity |]. split; [done |].
  intros value Hvalue. simpl in Hvalue. by apply elem_of_nil in Hvalue.
Qed.
End SampleCaseFacts.

(** C9 (sample cases).  For every grain sequence whose grains do not end
    before they start, every data array and every positive case rate, and for
    a [random] that returns an integer in [[low, high)], [createSampleCases]
    returns one sequence of cases per grain, in the order of the grains; the
    cases of a grain number [ceil((end - start) / caseRate)], and each is
    [Math.abs(data[j])] for an index [j] within the grain's span, which is the
    absolute value of a sample when the grain lies within the data. *)
Theorem createSampleCases_aligned (rng : Type)
    (random : Z -> Z -> rng -> Z * rng)
    (grains : list grain) (data : list Z) (caseRate : Z) (s : rng) :
  (forall low high s, low < high -> low <= fst (random low high s) < high) ->
  0 < caseRate -> Forall (fun g => start g <= end_ g) grains ->
  exists cases s',
    createSampleCases rng random grains data caseRate s = Ok (cases, s') /\
    length cases = length grains /\
    forall (i : nat) g,
      grains !! i = Some g ->
      exists inner,
        cases !! i = Some inner /\
        Z.of_nat (length inner) = Math_ceil_div (end_ g - start g) caseRate /\
        forall value, value ∈ inner ->
          exists j, start g <= j < end_ g /\ value = Math_abs (index data j) /\
            (0 <= start g -> end_ g <= len data ->
             exists sample,
               index data j = Some sample /\ value = Some (Z.abs sample)).
Proof.
  intros Hrandom Hrate Hwf.
  destruct (createSampleCases_Forall2 rng random Hrandom grains data caseRate s
              Hrate Hwf) as (cases & s' & Hcases & Hall).
  exists cases, s'. split; [done |].
  split; [symmetry; by eapply Forall2_length |].
  intros i g Hg.
  destruct (Forall2_lookup_l _ _ _ _ _ Hall Hg) as (inner & Hinner & Hlen & Hvals).
  exists inner. done.
Qed.

(** ** The scenarios of the specification *)

(** [split(grains, 15)] on the three-grain track. *)
Lemma splitGrain_preserves_invariant_witness :
  (exampleGrains <> [] /\ contiguous exampleGrains /\
   sortedAscending exampleGrains) /\
  exists newGrains,
    splitGrain exampleGrains 15 = Ok newGrains /\
    contiguous newGrains /\ sortedAscending newGrains /\
    firstStart newGrains = firstStart exampleGrains /\
    lastEnd newGrains = lastEnd exampleGrains /\
    (Forall wellFormed exampleGrains -> Forall wellFormed newGrains).
Proof.
  split; [repeat split; evaluate |].
  apply (splitGrain_preserves_invariant exampleGrains 15); evaluate.
Defined.

(** The grain [[10, 20)] split at its start, at its last sample and at 15. *)
Lemma splitGrainIntoTwo_contract_witness :
  let g := {| start := 10; end_ := 20; rest := {["label" := JStr "verse"]} |} in
  splitGrainIntoTwo g 10 = [g] /\
  splitGrainIntoTwo g 19 = [g] /\
  exists left right,
    splitGrainIntoTwo g 15 = [left; right] /\
    start left = start g /\ end_ left = 15 /\
    start right = 15 /\ end_ right = end_ g /\
    rest left = rest g /\ rest right = rest g /\
    forall key, rest left !! key = rest g !! key /\
                rest right !! key = rest g !! key.
Proof.
  intros g. split; [| split].
  - apply (proj1 (splitGrainIntoTwo_contract g 10)). simpl. lia.
  - apply (proj1 (splitGrainIntoTwo_contract g 19)). simpl. lia.
  - apply (proj2 (splitGrainIntoTwo_contract g 15)). simpl. lia.
Defined.

(** Splitting the three-grain track twice at 15. *)
Lemma splitGrain_idempotent_witness :
  (firstStart exampleGrains = Some 0 /\ lastEnd exampleGrains = Some 30 /\
   0 < 15 < 30 - 1) /\
  exists once,
    splitGrain exampleGrains 15 = Ok once /\
    (let* again := splitGrain exampleGrains 15 in splitGrain again 15)
      = splitGrain exampleGrains 15 /\
    splitGrain once 15 = Ok once /\
    exists g, g ∈ once /\ isInGrain 15 g = true /\
      (15 = start g \/ 15 = end_ g - 1).
Proof.
  split; [repeat split; evaluate |].
  apply (splitGrain_idempotent exampleGrains 15 0 30); evaluate.
Defined.

(** The flags of the fillers for the view [[5, 25)] of the three-grain
    track. *)
Lemma whichGrainsToShow_more_flags_witness :
  exampleGrains <> [] /\
  exists ix startFiller real endFiller,
    grainIndexesInView exampleGrains exampleView = Ok ix /\
    startIndex ix = 0 /\ endIndex ix = 2 /\
    whichGrainsToShow exampleGrains exampleView
      = Ok (startFiller :: real ++ [endFiller]) /\
    real = slice exampleGrains (startIndex ix) (endIndex ix + 1) /\
    rest startFiller !! "filler" = Some (JBool true) /\
    (rest startFiller !! "more" = Some (JBool true) <-> startIndex ix <> 0) /\
    (rest startFiller !! "more" = Some (JBool false) <-> startIndex ix = 0) /\
    rest endFiller !! "filler" = Some (JBool true) /\
    (rest endFiller !! "more" = Some (JBool true)
       <-> endIndex ix <> len exampleGrains - 1) /\
    (rest endFiller !! "more" = Some (JBool false)
       <-> endIndex ix = len exampleGrains - 1).
Proof.
  assert (exampleGrains <> []) as Hne by evaluate.
  split; [exact Hne |].
  destruct (whichGrainsToShow_more_flags exampleGrains exampleView Hne)
    as (ix & Hix & _ & Hsome).
  assert (ix = {| startIndex := 0; endIndex := 2 |}) as Heq.
  { assert (grainIndexesInView exampleGrains exampleView
            = Ok {| startIndex := 0; endIndex := 2 |}) as Hix' by reflexivity.
    rewrite Hix in Hix'. by injection Hix'. }
  subst ix.
  destruct (Hsome {| start := 0; end_ := 10; rest := empty |} eq_refl)
    as (startFiller & real & endFiller & Hshown).
  exists {| startIndex := 0; endIndex := 2 |}, startFiller, real, endFiller.
  split; [exact Hix |]. split; [reflexivity |]. split; [reflexivity |].
  exact Hshown.
Defined.

(** A view that ends beyond the three-grain track. *)
Lemma grainIndexesInView_end_clamped_witness :
  (lastEnd exampleGrains = Some 30 /\ 30 <= vend beyondView) /\
  divisionBinarySearch (vend beyondView) exampleGrains (Some 30) = -1 /\
  exists ix,
    grainIndexesInView exampleGrains beyondView = Ok ix /\
    endIndex ix = len exampleGrains - 1 /\
    endIndex ix <> -1 /\
    index exampleGrains (endIndex ix) = last exampleGrains.
Proof.
  split; [split; evaluate |].
  apply (grainIndexesInView_end_clamped exampleGrains beyondView 30); evaluate.
Defined.

(** A view that starts where the three-grain track ends. *)
Lemma whichGrainsToShow_start_beyond_track_witness :
  (lastEnd exampleGrains = Some 30 /\ 30 <= vstart beyondView) /\
  exists ix,
    grainIndexesInView exampleGrains beyondView = Ok ix /\
    startIndex ix = -1 /\
    index exampleGrains (startIndex ix) = None /\
    whichGrainsToShow exampleGrains beyondView = Throw (TypeError (-1)).
Proof.
  split; [split; evaluate |].
  apply (whichGrainsToShow_start_beyond_track exampleGrains beyondView 30);
    evaluate.
Defined.

(** The fillers of the view [[5, 25)] of the three-grain track. *)
Lemma whichGrainsToShow_negative_fillers_witness :
  (firstStart exampleGrains = Some 0 /\ lastEnd exampleGrains = Some 30 /\
   0 <= vstart exampleView < 30 /\ vstart exampleView < vend exampleView) /\
  exists startFiller real endFiller g,
    whichGrainsToShow exampleGrains exampleView
      = Ok (startFiller :: real ++ [endFiller]) /\
    g ∈ exampleGrains /\ isInGrain (vstart exampleView) g = true /\
    start startFiller = vstart exampleView /\ end_ startFiller = start g /\
    (start g < vstart exampleView -> end_ startFiller < start startFiller) /\
    (vend exampleView < 30 -> end_ endFiller < start endFiller).
Proof.
  split; [repeat split; evaluate |].
  apply (proj2 whichGrainsToShow_negative_fillers exampleGrains exampleView 0 30);
    evaluate.
Defined.

(** Sample cases of the three-grain track over thirty samples, one case per
    four samples. *)
Lemma createSampleCases_aligned_witness :
  let data := seqZ (-15) 30 in
  (0 < 4 /\ Forall (fun g => start g <= end_ g) exampleGrains) /\
  exists cases s',
    createSampleCases Z walkingRandom exampleGrains data 4 1 = Ok (cases, s') /\
    length cases = length exampleGrains /\
    forall (i : nat) g,
      exampleGrains !! i = Some g ->
      exists inner,
        cases !! i = Some inner /\
        Z.of_nat (length inner) = Math_ceil_div (end_ g - start g) 4 /\
        forall value, value ∈ inner ->
          exists j, start g <= j < end_ g /\ value = Math_abs (index data j) /\
            (0 <= start g -> end_ g <= len data ->
             exists sample,
               index data j = Some sample /\ value = Some (Z.abs sample)).
Proof.
  intros data.
  assert (Forall (fun g => start g <= end_ g) exampleGrains) as Hwf.
  { repeat constructor; simpl; lia. }
  split; [split; [lia | exact Hwf] |].
  apply (createSampleCases_aligned Z walkingRandom exampleGrains data 4 1);
    [| lia | exact Hwf].
  intros low high s Hlt. unfold walkingRandom. simpl.
  pose proof (Z.mod_pos_bound s (high - low)). lia.
Defined.

(** Ten samples in grains of half a second at eight samples per second. *)
Lemma createEquallySpacedGrains_partition_witness :
  let data := seqZ 0 10 in
  let grains := createEquallySpacedGrains eightPerSecond data (1 # 2) in
  ((0 < 1 # 2)%Q /\ 0 < eightPerSecond (1 # 2)) /\
  grains = [ {| start := 0; end_ := 4; rest := empty |};
             {| start := 4; end_ := 8; rest := empty |};
             {| start := 8; end_ := 10; rest := empty |} ] /\
  len grains = Math_ceil_div (len data) (eightPerSecond (1 # 2)) /\
  contiguous grains /\ sortedAscending grains /\ Forall wellFormed grains /\
  (data <> [] ->
   firstStart grains = Some 0 /\ lastEnd grains = Some (len data)).
Proof.
  intros data grains.
  assert ((0 < 1 # 2)%Q) as Hseconds by reflexivity.
  assert (0 < eightPerSecond (1 # 2)) as Hsamples by reflexivity.
  split; [done |]. split; [reflexivity |].
  pose proof (createEquallySpacedGrains_partition eightPerSecond data (1 # 2)
                Hseconds Hsamples) as H.
  cbv zeta in H. destruct H as (Hlen & _ & Hc & Hs & Hwf & Hends & _).
  done.
Defined.

(** * Further properties of the grain helpers *)

(** ** Grains of a sequence are disjoint and lie within its span *)

Lemma grain_within_span grains first final g :
  contiguous grains -> sortedAscending grains -> Forall wellFormed grains ->
  firstStart grains = Some first -> lastEnd grains = Some final ->
  g ∈ grains -> first <= start g /\ end_ g <= final.
Proof.
  intros Hc Hs Hwf (g0 & Hg0 & <-)%firstStart_Some (gl & Hgl & <-)%lastEnd_Some
    (n & Hg)%list_elem_of_lookup_1.
  split.
  - apply (sortedAscending_lookup grains 0 n); [done | lia | done | done].
  - rewrite last_lookup in Hgl. pose proof (lookup_lt_Some _ _ _ Hg) as Hlt.
    destruct (decide (n = Nat.pred (length grains))) as [-> | Hne].
    + simplify_eq. lia.
    + assert (n < Nat.pred (length grains))%nat as Hlt' by lia.
      pose proof (contiguous_end_le_start _ _ _ _ _ Hc Hs Hlt' Hg Hgl).
      pose proof (Forall_lookup_1 _ _ _ _ Hwf Hgl) as Hwl. unfold wellFormed in Hwl.
      lia.
Qed.

Lemma grains_disjoint (grains : list grain) (target : Z) (n m : nat)
    (g g' : grain) :
  contiguous grains -> sortedAscending grains ->
  grains !! n = Some g -> grains !! m = Some g' ->
  isInGrain target g = true -> isInGrain target g' = true ->
  n = m.
Proof.
  intros Hc Hs Hg Hg' Hin%isInGrain_spec Hin'%isInGrain_spec.
  destruct (Nat.lt_trichotomy n m) as [Hlt | [Heq | Hgt]]; [| done |].
  - pose proof (contiguous_end_le_start _ _ _ _ _ Hc Hs Hlt Hg Hg'). lia.
  - pose proof (contiguous_end_le_start _ _ _ _ _ Hc Hs Hgt Hg' Hg). lia.
Qed.

(** ** A split cuts every grain on its own *)

Lemma splitGrainIntoTwo_elsewhere g splitPoint :
  ~ (start g < splitPoint < end_ g - 1) -> splitGrainIntoTwo g splitPoint = [g].
Proof.
  intros Hout. unfold splitGrainIntoTwo. rewrite Z.geb_leb.
  destruct (Z.leb_spec splitPoint (start g)), (Z.leb_spec (end_ g - 1) splitPoint);
    simpl; try done; lia.
Qed.

Lemma splitEvery_elsewhere grains splitPoint :
  (forall g, g ∈ grains -> ~ (start g < splitPoint < end_ g - 1)) ->
  splitEvery grains splitPoint = grains.
Proof.
  unfold splitEvery. induction grains as [| g grains IH]; intros Hout; [done |].
  rewrite bind_cons, splitGrainIntoTwo_elsewhere.
  - simpl. f_equal. apply IH. intros g' Hg'. apply Hout. by right.
  - apply Hout. by left.
Qed.

Lemma splitGrain_splitEvery (grains : list grain) (splitPoint : Z) :
  grains <> [] -> contiguous grains -> sortedAscending grains ->
  Forall wellFormed grains ->
  splitGrain grains splitPoint = Ok (splitEvery grains splitPoint).
Proof.
  intros Hne Hc Hs Hwf.
  destruct (nonempty_ends grains Hne) as (first & final & Hf & Hl).
  destruct (decide (first < splitPoint < final - 1)) as [Hin | Hout].
  - destruct (contiguous_covers grains splitPoint first final Hc Hf Hl ltac:(lia))
      as (n & g & Hg & Hg').
    rewrite (splitGrain_inside grains splitPoint first final n g) by done.
    f_equal. unfold splitEvery.
    rewrite <- (take_drop_middle grains n g Hg) at 3.
    rewrite bind_app, bind_cons.
    assert (forall (k : nat) h, k <> n -> grains !! k = Some h ->
              ~ (start h < splitPoint < end_ h - 1)) as Hothers.
    { intros k h Hk Hh Hcut. apply Hk.
      apply (grains_disjoint grains splitPoint k n h g); try done.
      apply isInGrain_spec. lia. }
    pose proof (lookup_lt_Some _ _ _ Hg) as Hlt.
    fold (splitEvery (take n grains) splitPoint).
    fold (splitEvery (drop (S n) grains) splitPoint).
    rewrite !splitEvery_elsewhere; [done | |].
    + intros h (k & Hh)%list_elem_of_lookup_1. rewrite lookup_drop in Hh.
      apply (Hothers (S n + k)%nat); [lia | done].
    + intros h (k & Hh)%list_elem_of_lookup_1.
      pose proof (lookup_lt_Some _ _ _ Hh) as Hk. rewrite length_take in Hk.
      rewrite lookup_take_lt in Hh by lia.
      apply (Hothers k); [lia | done].
  - rewrite (splitGrain_outside grains splitPoint first final) by (done || lia).
    f_equal. symmetry. apply splitEvery_elsewhere. intros g Hg Hcut.
    pose proof (grain_within_span grains first final g Hc Hs Hwf Hf Hl Hg). lia.
Qed.

Lemma grainAt_lookup grains target (n : nat) g :
  grains !! n = Some g -> isInGrain target g = true ->
  (forall (m : nat) g', grains !! m = Some g' -> isInGrain target g' = true ->
                        m = n) ->
  grainAt grains target = Some g.
Proof.
  revert n. induction grains as [| a grains IH]; intros n Hg Hin Huniq; [done |].
  simpl. destruct (isInGrain target a) eqn:Ha.
  - specialize (Huniq 0%nat a eq_refl Ha). subst n. by simplify_eq/=.
  - destruct n as [| n]; [simplify_eq/=; congruence |].
    apply (IH n); [done | done |].
    intros m g' Hg' Hin'. specialize (Huniq (S m) g' Hg' Hin'). lia.
Qed.

(** X1 (no gaps, no overlaps).  In a contiguous sorted sequence every sample
    from the first start up to the last end belongs to exactly one grain:
    [isInGrain] holds at one index and at no other, and that grain is the one
    [grainAt] finds. *)
Theorem sample_in_exactly_one_grain (grains : list grain)
    (target first final : Z) :
  contiguous grains -> sortedAscending grains ->
  firstStart grains = Some first -> lastEnd grains = Some final ->
  first <= target < final ->
  exists (n : nat) g,
    grains !! n = Some g /\ isInGrain target g = true /\
    grainAt grains target = Some g /\
    forall (m : nat) g',
      grains !! m = Some g' -> isInGrain target g' = true -> m = n.
Proof.
  intros Hc Hs Hf Hl Ht.
  destruct (contiguous_covers grains target first final Hc Hf Hl Ht)
    as (n & g & Hg & Hin).
  assert (forall (m : nat) g',
            grains !! m = Some g' -> isInGrain target g' = true -> m = n)
    as Huniq.
  { intros m g' Hg' Hin'.
    apply (grains_disjoint grains target m n g' g); done. }
  exists n, g. split; [done |]. split; [done |]. split; [| done].
  by apply (grainAt_lookup grains target n g).
Qed.

(** X2 (a split cuts every grain on its own).  On a non-empty contiguous
    sorted sequence of non-empty grains [splitGrain] returns what cutting
    every grain on its own with [splitGrainIntoTwo] gives, so the quick exits
    and the search only save work; every grain of the result lies within a
    grain of the input and carries that grain's other properties. *)
Theorem splitGrain_splits_every (grains : list grain) (splitPoint : Z) :
  grains <> [] -> contiguous grains -> sortedAscending grains ->
  Forall wellFormed grains ->
  splitGrain grains splitPoint = Ok (splitEvery grains splitPoint) /\
  forall piece,
    piece ∈ splitEvery grains splitPoint ->
    exists g, g ∈ grains /\ start g <= start piece /\ end_ piece <= end_ g /\
              start piece < end_ piece /\ rest piece = rest g.
Proof.
  intros Hne Hc Hs Hwf.
  split; [by apply splitGrain_splitEvery |].
  intros piece (g & Hpiece & Hg)%list_elem_of_bind.
  pose proof (proj1 (Forall_forall _ _) Hwf g Hg) as Hg'. unfold wellFormed in Hg'.
  exists g. split; [done |].
  unfold splitGrainIntoTwo in Hpiece. rewrite Z.geb_leb in Hpiece.
  destruct (Z.leb_spec splitPoint (start g)), (Z.leb_spec (end_ g - 1) splitPoint);
    simpl in Hpiece.
  1-3: apply list_elem_of_singleton in Hpiece as ->;
    repeat split; first [lia | done].
  apply elem_of_cons in Hpiece as [-> | Hpiece].
  - simpl. repeat split; first [lia | done].
  - apply list_elem_of_singleton in Hpiece as ->. simpl.
    repeat split; first [lia | done].
Qed.

(** ** How splits compose *)

Lemma splitEvery_keeps_valid grains splitPoint :
  grains <> [] -> contiguous grains -> sortedAscending grains ->
  Forall wellFormed grains ->
  splitEvery grains splitPoint <> [] /\
  contiguous (splitEvery grains splitPoint) /\
  sortedAscending (splitEvery grains splitPoint) /\
  Forall wellFormed (splitEvery grains splitPoint).
Proof.
  intros Hne Hc Hs Hwf.
  pose proof (splitGrain_splitEvery grains splitPoint Hne Hc Hs Hwf) as Hsplit.
  destruct (splitGrain_cases grains splitPoint Hc Hs Hne)
    as [Hsame | (before & g & after & -> & Hp & Hcut)].
  - rewrite Hsame in Hsplit. injection Hsplit as <-. done.
  - rewrite Hcut in Hsplit. injection Hsplit as <-.
    destruct (replace_invariant before after g splitPoint Hp Hc Hs) as [Hc' Hs'].
    split; [by destruct before |]. split; [exact Hc' |]. split; [exact Hs' |].
    by apply replace_wellFormed.
Qed.

(** Cutting one grain at two points that are not neighbours gives the same
    pieces in either order. *)
Lemma splitGrainIntoTwo_commutes g p q :
  q - p <> 1 -> p - q <> 1 ->
  splitEvery (splitGrainIntoTwo g p) q = splitEvery (splitGrainIntoTwo g q) p.
Proof.
  intros Hpq Hqp. unfold splitEvery, splitGrainIntoTwo.
  rewrite !Z.geb_leb.
  destruct (Z.leb_spec p (start g)), (Z.leb_spec (end_ g - 1) p),
    (Z.leb_spec q (start g)), (Z.leb_spec (end_ g - 1) q);
    cbn [orb mbind list_bind app start end_ rest];
    unfold splitGrainIntoTwo; cbn [start end_ rest]; rewrite ?Z.geb_leb;
    repeat match goal with
           | |- context [?a <=? ?b] => destruct (Z.leb_spec a b)
           end;
    cbn [orb mbind list_bind app]; try reflexivity; try lia.
  (* both points cut the grain and coincide *)
  assert (p = q) as -> by lia. reflexivity.
Qed.

Lemma splitEvery_commutes grains p q :
  q - p <> 1 -> p - q <> 1 ->
  splitEvery (splitEvery grains p) q = splitEvery (splitEvery grains q) p.
Proof.
  intros Hpq Hqp. induction grains as [| g grains IH]; [done |].
  unfold splitEvery in *. rewrite !bind_cons, !bind_app, IH. f_equal.
  by apply splitGrainIntoTwo_commutes.
Qed.

(** X3 (splits commute).  On a non-empty contiguous sorted sequence of
    non-empty grains, splitting at [p] and then at [q] returns the same
    sequence as splitting at [q] and then at [p], provided the two points are
    not neighbouring samples. *)
Theorem splitGrain_commutes (grains : list grain) (p q : Z) :
  grains <> [] -> contiguous grains -> sortedAscending grains ->
  Forall wellFormed grains ->
  q - p <> 1 -> p - q <> 1 ->
  exists both,
    (let* first := splitGrain grains p in splitGrain first q) = Ok both /\
    (let* first := splitGrain grains q in splitGrain first p) = Ok both.
Proof.
  intros Hne Hc Hs Hwf Hpq Hqp.
  destruct (splitEvery_keeps_valid grains p Hne Hc Hs Hwf)
    as (Hne1 & Hc1 & Hs1 & Hwf1).
  destruct (splitEvery_keeps_valid grains q Hne Hc Hs Hwf)
    as (Hne2 & Hc2 & Hs2 & Hwf2).
  exists (splitEvery (splitEvery grains p) q).
  rewrite !(splitGrain_splitEvery grains) by done. cbn [bind].
  rewrite (splitGrain_splitEvery (splitEvery grains p) q) by done.
  rewrite (splitGrain_splitEvery (splitEvery grains q) p) by done.
  split; [done |]. f_equal. symmetry. by apply splitEvery_commutes.
Qed.

(** ** When a split cuts *)

(** The grain that has the split point strictly between its first and its
    last sample is the only grain that is cut. *)
Lemma splitEvery_cut grains splitPoint g :
  contiguous grains -> sortedAscending grains ->
  g ∈ grains -> start g < splitPoint < end_ g - 1 ->
  exists before after,
    grains = before ++ g :: after /\
    splitEvery grains splitPoint =
      before ++ leftHalf g splitPoint :: rightHalf g splitPoint :: after.
Proof.
  intros Hc Hs (n & Hg)%list_elem_of_lookup_1 Hcut.
  exists (take n grains), (drop (S n) grains).
  split; [by rewrite take_drop_middle |].
  assert (forall (k : nat) h, k <> n -> grains !! k = Some h ->
            ~ (start h < splitPoint < end_ h - 1)) as Hothers.
  { intros k h Hk Hh Hcut'. apply Hk.
    apply (grains_disjoint grains splitPoint k n h g); try done;
      apply isInGrain_spec; lia. }
  pose proof (lookup_lt_Some _ _ _ Hg) as Hlt.
  rewrite <- (take_drop_middle grains n g Hg) at 1.
  unfold splitEvery. rewrite bind_app, bind_cons.
  fold (splitEvery (take n grains) splitPoint).
  fold (splitEvery (drop (S n) grains) splitPoint).
  rewrite !splitEvery_elsewhere.
  - f_equal. unfold splitGrainIntoTwo. rewrite Z.geb_leb.
    destruct (Z.leb_spec splitPoint (start g)); [lia |].
    destruct (Z.leb_spec (end_ g - 1) splitPoint); [lia |]. done.
  - intros h (k & Hh)%list_elem_of_lookup_1. rewrite lookup_drop in Hh.
    apply (Hothers (S n + k)%nat); [lia | done].
  - intros h (k & Hh)%list_elem_of_lookup_1.
    pose proof (lookup_lt_Some _ _ _ Hh) as Hk. rewrite length_take in Hk.
    rewrite lookup_take_lt in Hh by lia.
    apply (Hothers k); [lia | done].
Qed.

(** X4 (when a split cuts).  On a non-empty contiguous sorted sequence of
    non-empty grains [splitGrain] adds exactly one grain when some grain has
    the split point strictly between its first sample and its last sample,
    and the split point is then the end of one grain of the result and the
    start of the next; in every other case, the edge samples of the grains
    included, it returns the sequence unchanged. *)
Theorem splitGrain_cuts_iff (grains : list grain) (splitPoint : Z) :
  grains <> [] -> contiguous grains -> sortedAscending grains ->
  Forall wellFormed grains ->
  ((exists g, g ∈ grains /\ start g < splitPoint < end_ g - 1) ->
   exists newGrains (n : nat) left right,
     splitGrain grains splitPoint = Ok newGrains /\
     length newGrains = S (length grains) /\
     newGrains !! n = Some left /\ newGrains !! S n = Some right /\
     end_ left = splitPoint /\ start right = splitPoint) /\
  (~ (exists g, g ∈ grains /\ start g < splitPoint < end_ g - 1) ->
   splitGrain grains splitPoint = Ok grains).
Proof.
  intros Hne Hc Hs Hwf.
  rewrite (splitGrain_splitEvery grains splitPoint Hne Hc Hs Hwf). split.
  - intros (g & Hg & Hcut).
    destruct (splitEvery_cut grains splitPoint g Hc Hs Hg Hcut)
      as (before & after & Hgrains & ->).
    exists (before ++ leftHalf g splitPoint :: rightHalf g splitPoint :: after),
      (length before), (leftHalf g splitPoint), (rightHalf g splitPoint).
    split; [done |]. split.
    { rewrite Hgrains, !length_app. simpl. lia. }
    split; [by rewrite list_lookup_middle |].
    split; [| done].
    change (before ++ leftHalf g splitPoint :: rightHalf g splitPoint :: after)
      with (before ++ [leftHalf g splitPoint] ++ rightHalf g splitPoint :: after).
    rewrite app_assoc. apply list_lookup_middle. rewrite length_app. simpl. lia.
  - intros Hnone. f_equal. apply splitEvery_elsewhere.
    intros g Hg Hcut. apply Hnone. by exists g.
Qed.

(** X5 (neighbouring split points).  For a grain of a contiguous sorted
    sequence of non-empty grains with [p] and [p + 1] both strictly between
    its first and its last sample, the order of the two splits matters:
    splitting at [p] and then at [p + 1] adds two grains, whereas splitting at
    [p + 1] first leaves [p] as the last sample of a grain, so the split at
    [p] is a no-op and only one grain is added. *)
Theorem splitGrain_neighbours_do_not_commute (grains : list grain) (g : grain)
    (p : Z) :
  contiguous grains -> sortedAscending grains -> Forall wellFormed grains ->
  g ∈ grains -> start g < p -> p + 1 < end_ g - 1 ->
  exists lowFirst highFirst,
    (let* first := splitGrain grains p in splitGrain first (p + 1))
      = Ok lowFirst /\
    (let* first := splitGrain grains (p + 1) in splitGrain first p)
      = Ok highFirst /\
    length lowFirst = S (S (length grains)) /\
    length highFirst = S (length grains) /\
    lowFirst <> highFirst.
Proof.
  intros Hc Hs Hwf Hg Hlow Hhigh.
  assert (grains <> []) as Hne by (intros ->; by apply elem_of_nil in Hg).
  destruct (splitEvery_keeps_valid grains p Hne Hc Hs Hwf)
    as (Hne1 & Hc1 & Hs1 & Hwf1).
  destruct (splitEvery_keeps_valid grains (p + 1) Hne Hc Hs Hwf)
    as (Hne2 & Hc2 & Hs2 & Hwf2).
  rewrite !(splitGrain_splitEvery grains) by done. cbn [bind].
  rewrite (splitGrain_splitEvery (splitEvery grains p) (p + 1)) by done.
  rewrite (splitGrain_splitEvery (splitEvery grains (p + 1)) p) by done.
  eexists _, _. split; [reflexivity |]. split; [reflexivity |].
  assert (length (splitEvery (splitEvery grains p) (p + 1))
          = S (S (length grains))) as Hlow2.
  { destruct (splitEvery_cut grains p g Hc Hs Hg ltac:(lia))
      as (before & after & Hgrains & Heq).
    destruct (splitEvery_cut (splitEvery grains p) (p + 1) (rightHalf g p)
                Hc1 Hs1) as (before' & after' & Heq' & ->).
    { rewrite Heq. apply elem_of_app. right. right. by left. }
    { simpl. lia. }
    apply (f_equal length) in Heq'. rewrite Heq in Heq'.
    rewrite Hgrains. rewrite !length_app in *. simpl in *. lia. }
  assert (length (splitEvery (splitEvery grains (p + 1)) p)
          = S (length grains)) as Hhigh2.
  { destruct (splitEvery_cut grains (p + 1) g Hc Hs Hg ltac:(lia))
      as (before & after & Hgrains & Heq).
    rewrite (splitEvery_elsewhere (splitEvery grains (p + 1)) p).
    - rewrite Heq, Hgrains, !length_app. simpl. lia.
    - intros h (k & Hh)%list_elem_of_lookup_1 Hcut.
      assert (splitEvery grains (p + 1) !! length before
              = Some (leftHalf g (p + 1))) as Hleft.
      { rewrite Heq. by rewrite list_lookup_middle. }
      assert (k = length before) as ->.
      { apply (grains_disjoint (splitEvery grains (p + 1)) p k (length before)
                 h (leftHalf g (p + 1))); try done;
          apply isInGrain_spec; simpl; lia. }
      rewrite Hleft in Hh. injection Hh as <-. simpl in Hcut. lia. }
  split; [done |]. split; [done |].
  intros Heq. rewrite Heq in Hlow2. lia.
Qed.

(** ** What a split keeps *)

Lemma grainAt_app before after sample :
  grainAt (before ++ after) sample =
    match grainAt before sample with
    | Some g => Some g
    | None => grainAt after sample
    end.
Proof.
  induction before as [| g before IH]; [done |].
  simpl. by destruct (isInGrain sample g).
Qed.

Lemma grainAt_splitGrainIntoTwo g splitPoint sample :
  grainAt (splitGrainIntoTwo g splitPoint) sample = None /\
    isInGrain sample g = false \/
  exists piece,
    grainAt (splitGrainIntoTwo g splitPoint) sample = Some piece /\
    rest piece = rest g /\ isInGrain sample g = true.
Proof.
  unfold splitGrainIntoTwo. rewrite Z.geb_leb.
  destruct (Z.leb_spec splitPoint (start g)), (Z.leb_spec (end_ g - 1) splitPoint);
    cbn [orb grainAt]; unfold isInGrain; cbn [start end_ rest];
    rewrite ?Z.geb_leb;
    repeat match goal with
           | |- context [?a <=? ?b] => destruct (Z.leb_spec a b)
           | |- context [?a <? ?b] => destruct (Z.ltb_spec a b)
           end;
    cbn [andb]; try lia; try (by left); right; eexists; done.
Qed.

Lemma grainAt_splitEvery grains splitPoint sample :
  rest <$> grainAt (splitEvery grains splitPoint) sample
  = rest <$> grainAt grains sample.
Proof.
  induction grains as [| g grains IH]; [done |].
  unfold splitEvery in *. rewrite bind_cons, grainAt_app. simpl.
  destruct (grainAt_splitGrainIntoTwo g splitPoint sample)
    as [[-> ->] | (piece & -> & Hrest & ->)]; [exact IH |].
  simpl. by rewrite Hrest.
Qed.

(** X6 (a split keeps every sample's properties).  On a non-empty contiguous
    sorted sequence of non-empty grains, the grain that holds a sample after
    [splitGrain] carries the same other properties as the grain that held it
    before, and a sample is held by a grain after the split exactly when it
    was before. *)
Theorem splitGrain_keeps_properties (grains : list grain) (splitPoint : Z) :
  grains <> [] -> contiguous grains -> sortedAscending grains ->
  Forall wellFormed grains ->
  exists newGrains,
    splitGrain grains splitPoint = Ok newGrains /\
    forall sample,
      rest <$> grainAt newGrains sample = rest <$> grainAt grains sample /\
      (is_Some (grainAt newGrains sample) <-> is_Some (grainAt grains sample)).
Proof.
  intros Hne Hc Hs Hwf. exists (splitEvery grains splitPoint).
  split; [by apply splitGrain_splitEvery |].
  intros sample.
  pose proof (grainAt_splitEvery grains splitPoint sample) as Heq.
  split; [exact Heq |].
  destruct (grainAt (splitEvery grains splitPoint) sample),
    (grainAt grains sample); simpl in Heq; try done.
  all: split; intros [? ?]; done.
Qed.

(** X7 (grain lengths add up to the span).  The lengths that [grainLengths]
    returns for a contiguous sequence add up to the distance from the first
    start to the last end, and there is one length per grain. *)
Theorem grainLengths_total (grains : list grain) (first final : Z) :
  contiguous grains ->
  firstStart grains = Some first -> lastEnd grains = Some final ->
  length (grainLengths grains) = length grains /\
  total (grainLengths grains) = final - first.
Proof.
  intros Hc Hf Hl. split; [unfold grainLengths; by rewrite length_fmap |].
  revert first Hf. induction grains as [| g grains IH]; intros first Hf; [done |].
  unfold firstStart in Hf. simpl in Hf. injection Hf as <-.
  destruct grains as [| g' grains].
  - unfold lastEnd in Hl. simpl in Hl. injection Hl as <-.
    unfold total. simpl. lia.
  - destruct Hc as [Hgg' Hc].
    specialize (IH Hc Hl (start g') eq_refl).
    unfold total in *. simpl in *. lia.
Qed.

(** X8 (the two halves partition the grain).  Whatever the split point, the
    lengths of the grains [splitGrainIntoTwo] returns add up to the length of
    the grain, every sample of the grain lies in exactly one of them and no
    other sample lies in any, and they are non-empty when the grain is. *)
Theorem splitGrainIntoTwo_partitions (g : grain) (splitPoint : Z) :
  total (grainLengths (splitGrainIntoTwo g splitPoint)) = end_ g - start g /\
  (forall sample,
     length (filter (fun piece => isInGrain sample piece = true)
               (splitGrainIntoTwo g splitPoint))
     = if isInGrain sample g then 1%nat else 0%nat) /\
  (wellFormed g -> Forall wellFormed (splitGrainIntoTwo g splitPoint)).
Proof.
  unfold splitGrainIntoTwo, wellFormed. rewrite Z.geb_leb.
  destruct (Z.leb_spec splitPoint (start g)), (Z.leb_spec (end_ g - 1) splitPoint);
    cbn [orb]; (split; [unfold total; simpl; lia |]);
    (split; [| intros Hwf; repeat constructor; simpl; lia]);
    intros sample; rewrite !filter_cons, filter_nil;
    unfold isInGrain; cbn [start end_]; rewrite !Z.geb_leb;
    repeat match goal with
           | |- context [?a <=? ?b] => destruct (Z.leb_spec a b)
           | |- context [?a <? ?b] => destruct (Z.ltb_spec a b)
           end;
    cbn [andb]; repeat case_decide; try done; try lia.
Qed.

(** X9 (empty sequence).  Without any grain there is no first or last grain to
    read: [splitGrain] throws on [grains[0].start], and [grainIndexesInView]
    and with it [whichGrainsToShow] throw on [grains[-1].end], for every split
    point and every view; the empty array is the only one on which
    [grainIndexesInView] throws.  [createSampleCases] returns no cases for it
    and draws no random number. *)
Theorem empty_sequence (splitPoint : Z) (v : view) (rng : Type)
    (random : Z -> Z -> rng -> Z * rng) (data : list Z) (caseRate : Z)
    (s : rng) :
  splitGrain [] splitPoint = Throw (TypeError 0) /\
  grainIndexesInView [] v = Throw (TypeError (-1)) /\
  whichGrainsToShow [] v = Throw (TypeError (-1)) /\
  createSampleCases rng random [] data caseRate s = Ok ([], s) /\
  forall grains,
    (exists e, grainIndexesInView grains v = Throw e) <-> grains = [].
Proof.
  repeat (split; [reflexivity |]).
  intros grains. split.
  - intros [e He]. destruct (decide (grains = [])) as [| Hne]; [done |].
    destruct (nonempty_last grains Hne) as [gl Hgl].
    by rewrite (grainIndexesInView_unfold grains v gl Hgl) in He.
  - intros ->. by eexists.
Qed.

(** ** Views that start inside the track *)

(** The indexes for a view that starts inside the track. *)
Lemma grainIndexesInView_inside grains v first final :
  contiguous grains -> sortedAscending grains ->
  firstStart grains = Some first -> lastEnd grains = Some final ->
  first <= vstart v < final -> vstart v < vend v ->
  exists (n m : nat) g g',
    grains !! n = Some g /\ isInGrain (vstart v) g = true /\
    grains !! m = Some g' /\ (n <= m)%nat /\
    (vend v < final -> isInGrain (vend v) g' = true) /\
    (final <= vend v -> m = Nat.pred (length grains)) /\
    grainIndexesInView grains v
      = Ok {| startIndex := Z.of_nat n; endIndex := Z.of_nat m |}.
Proof.
  intros Hc Hs Hf Hl Hstart Hlt.
  destruct (lastEnd_Some grains final Hl) as (gl & Hgl & <-).
  destruct (contiguous_covers grains (vstart v) first (end_ gl) Hc Hf Hl Hstart)
    as (n & g & Hg & Hin).
  assert (divisionBinarySearch (vstart v) grains (Some (end_ gl)) = Z.of_nat n)
    as Hsn.
  { apply (divisionBinarySearch_contains grains (vstart v) n g); try done.
    - intros gl' ?. simplify_eq. lia.
    - intros b [= <-]. lia. }
  pose proof (grainIndexesInView_unfold grains v gl Hgl) as Hix.
  rewrite Hsn in Hix.
  pose proof (lookup_lt_Some _ _ _ Hg) as Hn.
  destruct (decide (vend v < end_ gl)) as [Hend | Hend].
  - destruct (contiguous_covers grains (vend v) first (end_ gl) Hc Hf Hl ltac:(lia))
      as (m & g' & Hg' & Hin').
    assert (divisionBinarySearch (vend v) grains (Some (end_ gl)) = Z.of_nat m)
      as Hsm.
    { apply (divisionBinarySearch_contains grains (vend v) m g'); try done.
      - intros gl' ?. simplify_eq. lia.
      - intros b [= <-]. lia. }
    rewrite Hsm in Hix.
    destruct (Z.eqb_spec (Z.of_nat m) (-1)) as [| _]; [lia |].
    exists n, m, g, g'. repeat (split; [done || lia |]).
    split; [| split; [done | split; [lia | done]]].
    destruct (decide (n <= m)%nat) as [| Hgt]; [done |]. exfalso.
    assert (m < n)%nat as Hmn by lia.
    pose proof (contiguous_end_le_start _ _ _ _ _ Hc Hs Hmn Hg' Hg).
    apply isInGrain_spec in Hin, Hin'. lia.
  - rewrite (divisionBinarySearch_beyond grains (vend v) (end_ gl)) in Hix by lia.
    simpl in Hix.
    pose proof Hgl as Hgl'. rewrite last_lookup in Hgl'.
    assert (len grains - 1 = Z.of_nat (Nat.pred (length grains))) as Hlast.
    { unfold len. lia. }
    rewrite Hlast in Hix.
    exists n, (Nat.pred (length grains)), g, gl.
    repeat (split; [done || lia |]). done.
Qed.

(** A block of consecutive grains of a sequence keeps its neighbours
    related. *)
Lemma adjacent_block R grains (n k : nat) :
  adjacent R grains -> adjacent R (take k (drop n grains)).
Proof.
  intros Hadj. apply adjacent_of_lookup. intros i g g' Hg Hg'.
  pose proof (lookup_lt_Some _ _ _ Hg') as Hi. rewrite length_take in Hi.
  rewrite lookup_take_lt, lookup_drop in Hg, Hg' by lia.
  replace (n + S i)%nat with (S (n + i)) in Hg' by lia.
  by apply (adjacent_lookup R grains (n + i) g g').
Qed.

(** Neighbours stay related when a sequence gets a new first and a new last
    element that fit its ends. *)
Lemma adjacent_snoc R b grains final :
  last grains = Some final -> R final b -> adjacent R grains ->
  adjacent R (grains ++ [b]).
Proof.
  intros Hl Hb. induction grains as [| g grains IH]; intros Hadj; [done |].
  destruct grains as [| g' grains].
  - simpl in Hl. injection Hl as ->. simpl. done.
  - destruct Hadj as [Hgg' Hadj]. rewrite last_cons_cons in Hl.
    change (R g g' /\ adjacent R ((g' :: grains) ++ [b])).
    split; [done |]. by apply IH.
Qed.

Lemma adjacent_wrap R a b grains first final :
  head grains = Some first -> last grains = Some final ->
  R a first -> R final b -> adjacent R grains ->
  adjacent R (a :: grains ++ [b]).
Proof.
  intros Hh Hl Ha Hb Hadj.
  pose proof (adjacent_snoc R b grains final Hl Hb Hadj) as Hsnoc.
  destruct grains as [| g grains]; [done |]. simpl in Hh. injection Hh as ->.
  split; [done |]. exact Hsnoc.
Qed.

(** X10 (the shown sequence runs from the view's start to the view's end).
    For a contiguous sorted sequence and a view that starts inside the track
    and ends after it starts, [whichGrainsToShow] returns the start filler,
    a block of consecutive grains of the sequence and the end filler, each
    element ending where the next one starts, the first one starting at the
    view's start and the last one ending at the view's end. *)
Theorem whichGrainsToShow_chain (grains : list grain) (v : view)
    (first final : Z) :
  contiguous grains -> sortedAscending grains ->
  firstStart grains = Some first -> lastEnd grains = Some final ->
  first <= vstart v < final -> vstart v < vend v ->
  exists startFiller endFiller (n count : nat),
    whichGrainsToShow grains v
      = Ok (startFiller :: take count (drop n grains) ++ [endFiller]) /\
    (0 < count)%nat /\ (n + count <= length grains)%nat /\
    contiguous (startFiller :: take count (drop n grains) ++ [endFiller]) /\
    start startFiller = vstart v /\ end_ endFiller = vend v.
Proof.
  intros Hc Hs Hf Hl Hstart Hlt.
  destruct (grainIndexesInView_inside grains v first final Hc Hs Hf Hl Hstart Hlt)
    as (n & m & g & g' & Hg & _ & Hg' & Hnm & _ & _ & Hix).
  pose proof (lookup_lt_Some _ _ _ Hg') as Hm.
  rewrite (whichGrainsToShow_unfold grains v _ g g' Hix);
    cbn [startIndex endIndex]; [| by rewrite index_nat | by rewrite index_nat].
  replace (Z.of_nat m + 1) with (Z.of_nat (S m)) by lia.
  rewrite slice_range by lia.
  eexists _, _, n, (S m - n)%nat. split; [reflexivity |].
  split; [lia |]. split; [lia |]. split; [| done].
  apply (adjacent_wrap _ _ _ _ g g').
  - rewrite head_lookup, lookup_take_lt, lookup_drop by lia.
    by rewrite Nat.add_0_r.
  - rewrite last_lookup, length_take, length_drop.
    rewrite lookup_take_lt, lookup_drop by lia.
    rewrite <- Hg'. f_equal. lia.
  - done.
  - done.
  - by apply adjacent_block.
Qed.

(** X11 (indexes in view).  For a contiguous sorted sequence and a view that
    starts inside the track and ends after it starts, [grainIndexesInView]
    returns the index of the grain that contains the view's start and, not
    before it, the index of the grain that contains the view's end, or of the
    last grain when the view ends at or beyond the track's end. *)
Theorem grainIndexesInView_ordered (grains : list grain) (v : view)
    (first final : Z) :
  contiguous grains -> sortedAscending grains ->
  firstStart grains = Some first -> lastEnd grains = Some final ->
  first <= vstart v < final -> vstart v < vend v ->
  exists ix g g',
    grainIndexesInView grains v = Ok ix /\
    0 <= startIndex ix <= endIndex ix /\ endIndex ix < len grains /\
    index grains (startIndex ix) = Some g /\ isInGrain (vstart v) g = true /\
    index grains (endIndex ix) = Some g' /\
    (vend v < final -> isInGrain (vend v) g' = true) /\
    (final <= vend v -> endIndex ix = len grains - 1).
Proof.
  intros Hc Hs Hf Hl Hstart Hlt.
  destruct (grainIndexesInView_inside grains v first final Hc Hs Hf Hl Hstart Hlt)
    as (n & m & g & g' & Hg & Hin & Hg' & Hnm & Hin' & Hlast & Hix).
  pose proof (lookup_lt_Some _ _ _ Hg') as Hm.
  eexists _, g, g'. split; [exact Hix |]. cbn [startIndex endIndex].
  split; [lia |]. split; [unfold len; lia |].
  split; [by rewrite index_nat |]. split; [done |].
  split; [by rewrite index_nat |]. split; [done |].
  intros Hend. rewrite (Hlast Hend). unfold len. lia.
Qed.

(** X12 (a view of the whole track).  For a non-empty contiguous sorted
    sequence of non-empty grains and a view that starts at the first start
    and ends at or beyond the last end, [whichGrainsToShow] returns every
    grain between an empty start filler and an end filler from the track's
    end to the view's end, both with [more = false]. *)
Theorem whichGrainsToShow_whole_track (grains : list grain) (v : view)
    (first final : Z) :
  contiguous grains -> sortedAscending grains -> Forall wellFormed grains ->
  firstStart grains = Some first -> lastEnd grains = Some final ->
  vstart v = first -> final <= vend v ->
  whichGrainsToShow grains v =
    Ok (createFillerGrain first first false
          :: grains ++ [createFillerGrain final (vend v) false]).
Proof.
  intros Hc Hs Hwf Hf Hl Hstart Hend.
  destruct (firstStart_Some grains first Hf) as (g0 & Hg0 & Hs0).
  destruct (lastEnd_Some grains final Hl) as (gl & Hgl & He).
  pose proof (Forall_lookup_1 _ _ _ _ Hwf Hg0) as Hwf0. unfold wellFormed in Hwf0.
  pose proof (grain_within_span grains first final g0 Hc Hs Hwf Hf Hl
                ltac:(by eapply list_elem_of_lookup_2)) as [_ Hg0end].
  assert (divisionBinarySearch (vstart v) grains (Some (end_ gl)) = Z.of_nat 0)
    as Hsn.
  { apply (divisionBinarySearch_contains grains (vstart v) 0 g0); try done.
    - apply isInGrain_spec. lia.
    - intros gl' ?. simplify_eq. lia.
    - intros b [= <-]. lia. }
  pose proof (grainIndexesInView_unfold grains v gl Hgl) as Hix.
  rewrite Hsn in Hix.
  rewrite (divisionBinarySearch_beyond grains (vend v) (end_ gl)) in Hix by lia.
  simpl in Hix.
  pose proof Hgl as Hgl'. rewrite last_lookup in Hgl'.
  pose proof (lookup_lt_Some _ _ _ Hg0) as Hlen.
  assert (len grains - 1 = Z.of_nat (Nat.pred (length grains))) as Hlast.
  { unfold len. lia. }
  rewrite (whichGrainsToShow_unfold grains v _ g0 gl Hix);
    cbn [startIndex endIndex];
    [| done | by rewrite Hlast, index_nat].
  replace (len grains - 1 + 1) with (len grains) by lia.
  rewrite (slice_suffix grains 0) by lia.
  rewrite drop_0, Hstart, Hs0, He, !Z.eqb_refl. done.
Qed.

(** ** Sample cases and the bounds of the data *)

(** X13 (cases inside and outside the data).  Under the conditions of C9,
    [createSampleCases] returns one list of cases for every grain; the cases
    of a grain that lies within the data array are all numbers, and none is
    negative; the cases of a non-empty grain that lies entirely before index
    [0] or entirely beyond the end of the data are all [NaN], and there is at
    least one. *)
Theorem createSampleCases_values (rng : Type)
    (random : Z -> Z -> rng -> Z * rng)
    (grains : list grain) (data : list Z) (caseRate : Z) (s : rng) :
  (forall low high s, low < high -> low <= fst (random low high s) < high) ->
  0 < caseRate -> Forall (fun g => start g <= end_ g) grains ->
  exists cases s',
    createSampleCases rng random grains data caseRate s = Ok (cases, s') /\
    length cases = length grains /\
    forall (i : nat) g,
      grains !! i = Some g ->
      exists inner,
        cases !! i = Some inner /\
        (0 <= start g -> end_ g <= len data ->
         Forall (fun value => exists n, value = Some n /\ 0 <= n) inner) /\
        (start g < end_ g -> end_ g <= 0 \/ len data <= start g ->
         inner <> [] /\ Forall (fun value => value = None) inner).
Proof.
  intros Hrandom Hrate Hwf.
  destruct (createSampleCases_Forall2 rng random Hrandom grains data caseRate s
              Hrate Hwf) as (cases & s' & Hcases & Hall).
  exists cases, s'. split; [done |].
  split; [symmetry; by eapply Forall2_length |].
  intros i g Hg.
  destruct (Forall2_lookup_l _ _ _ _ _ Hall Hg) as (inner & Hinner & Hlen & Hvals).
  exists inner. split; [done |]. split.
  - intros Hlow Hhigh. apply Forall_forall. intros value Hvalue.
    destruct (Hvals value Hvalue) as (j & _ & _ & Hsample).
    destruct (Hsample Hlow Hhigh) as (sample & _ & ->).
    exists (Z.abs sample). split; [done | lia].
  - intros Hlt Hout. split.
    + pose proof (Math_ceil_div_spec (end_ g - start g) caseRate Hrate).
      destruct inner; [simpl in Hlen; nia | done].
    + apply Forall_forall. intros value Hvalue.
      destruct (Hvals value Hvalue) as (j & Hj & -> & _).
      unfold index. destruct (Z.ltb_spec j 0); [done |].
      rewrite lookup_ge_None_2; [done |]. unfold len in Hout. lia.
Qed.

(** * Properties of removing a track *)

Lemma indexOfFrom_lookup arr x (i : nat) from :
  NoDup arr -> arr !! i = Some x -> indexOfFrom arr x from = from + Z.of_nat i.
Proof.
  revert i from. induction arr as [| y arr IH]; intros i from Hnd Hx; [done |].
  apply NoDup_cons in Hnd as [Hy Hnd]. simpl.
  destruct i as [| i].
  - simpl in Hx. injection Hx as ->. rewrite decide_True by done. lia.
  - simpl in Hx. rewrite decide_False.
    + rewrite (IH i (from + 1) Hnd Hx). lia.
    + intros ->. apply Hy. by eapply list_elem_of_lookup_2.
Qed.

Lemma indexOfFrom_absent arr x from : x ∉ arr -> indexOfFrom arr x from = -1.
Proof.
  revert from. induction arr as [| y arr IH]; intros from Hx; [done |].
  apply not_elem_of_cons in Hx as [Hxy Hx]. simpl.
  rewrite decide_False by done. by apply IH.
Qed.

Lemma filter_absent (arr : list string) x :
  x ∉ arr -> filter (fun id => x <> id) arr = arr.
Proof.
  induction arr as [| y arr IH]; intros Hx; [done |].
  apply not_elem_of_cons in Hx as [Hxy Hx].
  rewrite filter_cons_True by done. f_equal. by apply IH.
Qed.

Lemma filter_remove_at (arr : list string) x (i : nat) :
  NoDup arr -> arr !! i = Some x ->
  filter (fun id => x <> id) arr = take i arr ++ drop (S i) arr.
Proof.
  revert i. induction arr as [| y arr IH]; intros i Hnd Hx; [done |].
  apply NoDup_cons in Hnd as [Hy Hnd].
  destruct i as [| i].
  - simpl in Hx. injection Hx as ->.
    rewrite filter_cons_False by (intros Hne; by apply Hne).
    simpl. rewrite drop_0. by apply filter_absent.
  - simpl in Hx. rewrite filter_cons_True.
    + simpl. f_equal. by apply IH.
    + intros ->. apply Hy. by eapply list_elem_of_lookup_2.
Qed.

Lemma lookup_foldl_insert {V : Type} (f : string -> V) (ids : list string)
    (m : gmap string V) (key : string) :
  foldl (fun current id => <[id := f id]> current) m ids !! key
  = if decide (key ∈ ids) then Some (f key) else m !! key.
Proof.
  revert m. induction ids as [| id ids IH]; intros m.
  - cbn [foldl]. rewrite decide_False; [done |]. apply not_elem_of_nil.
  - cbn [foldl]. rewrite IH. destruct (decide (key ∈ ids)) as [Hin | Hout].
    + rewrite decide_True; [done |]. by right.
    + destruct (decide (key = id)) as [-> | Hne].
      * rewrite lookup_insert_eq. rewrite decide_True; [done |]. by left.
      * rewrite lookup_insert_ne by done. rewrite decide_False; [done |].
        intros [? | ?]%elem_of_cons; done.
Qed.

Section RemoveTrackFacts.
Variable track : Type.
Variable REMOVE_TRACK : string.
Variable trackIdArray : State track -> list string.
Variable clamp : Z -> Z -> Z -> Z.

(** The action that is dispatched first. *)
Lemma removeTrack_first trackId state :
  exists action more,
    removeTrack track REMOVE_TRACK trackIdArray clamp trackId state
      = DispatchAction action :: more /\
    type action = REMOVE_TRACK /\
    forall id,
      payload action !! id =
        if decide (id ∈ trackIdArray state /\ id <> trackId)
        then Some (trackList (tracks state) !! id)
        else None.
Proof.
  unfold removeTrack.
  destruct (decide (Some trackId = selectedTrack (tracks state)));
    (eexists (removeTrackSimple track REMOVE_TRACK _), _;
     split; [reflexivity |]; split; [done |]; intros id; simpl).
  all: rewrite lookup_foldl_insert, lookup_empty.
  all: destruct (decide (id ∈ filter (fun id0 => trackId <> id0)
                                (trackIdArray state))) as [Hin | Hout].
  all: try (apply list_elem_of_filter in Hin as [Hne Hin];
            rewrite decide_True; [done |]; split; [done | congruence]).
  all: rewrite decide_False; [done |]; intros [Hin Hne]; apply Hout;
    apply list_elem_of_filter; (split; [congruence | done]).
Qed.
End RemoveTrackFacts.

(** X14 (the new track list).  The first thing [removeTrack] dispatches is the
    action [removeTrackSimple] builds, of type [REMOVE_TRACK]; its payload
    holds exactly the ids of [trackIdArray(state)] other than the removed one,
    each with what the old track list holds for it, so the removed id is
    never a key of the payload. *)
Theorem removeTrack_payload (track : Type) (REMOVE_TRACK : string)
    (trackIdArray : State track -> list string) (clamp : Z -> Z -> Z -> Z)
    (trackId : string) (state : State track) :
  exists action more,
    removeTrack track REMOVE_TRACK trackIdArray clamp trackId state
      = DispatchAction action :: more /\
    type action = REMOVE_TRACK /\
    payload action !! trackId = None /\
    (forall id,
       id ∈ trackIdArray state -> id <> trackId ->
       payload action !! id = Some (trackList (tracks state) !! id)) /\
    (forall id, id ∉ trackIdArray state -> payload action !! id = None).
Proof.
  destruct (removeTrack_first track REMOVE_TRACK trackIdArray clamp trackId state)
    as (action & more & Heq & Htype & Hpayload).
  exists action, more. split; [done |]. split; [done |].
  split; [| split].
  - rewrite Hpayload. rewrite decide_False; [done |]. intros [_ Hne]. done.
  - intros id Hin Hne. rewrite Hpayload. by rewrite decide_True.
  - intros id Hout. rewrite Hpayload. rewrite decide_False; [done |].
    intros [Hin _]. done.
Qed.

Lemma index_nil {A : Type} (i : Z) : index (@nil A) i = None.
Proof. unfold index. by destruct (i <? 0). Qed.

Lemma index_elem_of {A : Type} (arr : list A) (i : Z) (a : A) :
  index arr i = Some a -> a ∈ arr.
Proof. intros [_ Ha]%index_Some. by eapply list_elem_of_lookup_2. Qed.

(** X15 (which track is selected next).  When the removed track is the
    selected one and sits at position [i] of a duplicate-free id list, and
    [clamp] clamps, [removeTrack] dispatches the removal and then
    [selectTrack] for the id that followed the removed one; for the id before
    it when the removed one was the last of several; and for [undefined]
    when it was the only one. *)
Theorem removeTrack_selects_neighbour (track : Type) (REMOVE_TRACK : string)
    (trackIdArray : State track -> list string) (clamp : Z -> Z -> Z -> Z)
    (trackId : string) (state : State track) (i : nat) :
  (forall value low high,
     low <= high -> clamp value low high = Z.max low (Z.min value high)) ->
  NoDup (trackIdArray state) ->
  trackIdArray state !! i = Some trackId ->
  selectedTrack (tracks state) = Some trackId ->
  exists action next,
    removeTrack track REMOVE_TRACK trackIdArray clamp trackId state
      = [DispatchAction action; DispatchSelectTrack next] /\
    ((S i < length (trackIdArray state))%nat ->
     next = trackIdArray state !! S i) /\
    ((S i = length (trackIdArray state))%nat -> (0 < i)%nat ->
     next = trackIdArray state !! Nat.pred i) /\
    (length (trackIdArray state) = 1%nat -> next = None).
Proof.
  intros Hclamp Hnd Hi Hsel. unfold removeTrack.
  rewrite Hsel, decide_True by done.
  eexists _, _. split; [reflexivity |].
  pose proof (lookup_lt_Some _ _ _ Hi) as Hlt.
  rewrite (filter_remove_at _ _ i Hnd Hi).
  unfold indexOf. rewrite (indexOfFrom_lookup _ _ i 0 Hnd Hi), Z.add_0_l.
  split; [| split].
  - intros Hnext. rewrite Hclamp by (unfold len; lia).
    rewrite Z.min_l, Z.max_r by (unfold len; lia).
    rewrite index_nat, lookup_app_r by (rewrite length_take; lia).
    rewrite length_take, lookup_drop. f_equal. lia.
  - intros Hlast Hpos. rewrite Hclamp by (unfold len; lia).
    rewrite Z.min_r, Z.max_r by (unfold len; lia).
    replace (len (trackIdArray state) - 1 - 1) with (Z.of_nat (Nat.pred i))
      by (unfold len; lia).
    rewrite index_nat, lookup_app_l by (rewrite length_take; lia).
    apply lookup_take_lt. lia.
  - intros Hone. assert (i = 0%nat) as -> by lia.
    rewrite take_0, drop_ge by lia. apply index_nil.
Qed.

(** X16 (the removed track is never selected).  [removeTrack] dispatches
    [selectTrack] only when the removed track is the selected one, and never
    for the removed track itself: what it selects, unless [undefined], is one
    of the other ids of [trackIdArray(state)], whatever [clamp] returns.  When
    the removed track is not the selected one, the removal is all that is
    dispatched. *)
Theorem removeTrack_never_selects_removed (track : Type)
    (REMOVE_TRACK : string) (trackIdArray : State track -> list string)
    (clamp : Z -> Z -> Z -> Z) (trackId : string) (state : State track) :
  (selectedTrack (tracks state) <> Some trackId ->
   exists action,
     removeTrack track REMOVE_TRACK trackIdArray clamp trackId state
       = [DispatchAction action]) /\
  (forall next,
     DispatchSelectTrack next
       ∈ removeTrack track REMOVE_TRACK trackIdArray clamp trackId state ->
     selectedTrack (tracks state) = Some trackId /\
     next <> Some trackId /\
     forall id, next = Some id -> id ∈ trackIdArray state /\ id <> trackId).
Proof.
  unfold removeTrack.
  destruct (decide (Some trackId = selectedTrack (tracks state))) as [Hsel | Hsel].
  - split; [intros Hne; congruence |].
    intros next Hin.
    apply elem_of_cons in Hin as [Hin | Hin]; [done |].
    apply list_elem_of_singleton in Hin. injection Hin as ->.
    split; [done |].
    assert (forall id,
              index (filter (fun id0 => trackId <> id0) (trackIdArray state))
                (clamp (indexOf (trackIdArray state) trackId) 0
                   (len (trackIdArray state) - 1 - 1)) = Some id ->
              id ∈ trackIdArray state /\ id <> trackId) as Hnext.
    { intros id Hid%index_elem_of.
      apply list_elem_of_filter in Hid as [Hne Hid]. split; [done | congruence]. }
    split; [| exact Hnext].
    intros Heq. destruct (Hnext trackId Heq) as [_ Hne]. done.
  - split; [intros _; by eexists |].
    intros next Hin. apply list_elem_of_singleton in Hin. done.
Qed.

(** X17 (removing an id that is not listed).  When the id is not among
    [trackIdArray(state)], the payload of the removal keeps every listed id;
    and if that id is nevertheless the selected track, there are at least two
    listed ids and [clamp] clamps, [indexOf] yields [-1] and the first listed
    id is selected. *)
Theorem removeTrack_unknown_id (track : Type) (REMOVE_TRACK : string)
    (trackIdArray : State track -> list string) (clamp : Z -> Z -> Z -> Z)
    (trackId : string) (state : State track) :
  trackId ∉ trackIdArray state ->
  exists action more,
    removeTrack track REMOVE_TRACK trackIdArray clamp trackId state
      = DispatchAction action :: more /\
    (forall id,
       id ∈ trackIdArray state ->
       payload action !! id = Some (trackList (tracks state) !! id)) /\
    ((forall value low high,
        low <= high -> clamp value low high = Z.max low (Z.min value high)) ->
     selectedTrack (tracks state) = Some trackId ->
     (2 <= length (trackIdArray state))%nat ->
     indexOf (trackIdArray state) trackId = -1 /\
     more = [DispatchSelectTrack (head (trackIdArray state))]).
Proof.
  intros Hout.
  destruct (removeTrack_first track REMOVE_TRACK trackIdArray clamp trackId state)
    as (action & more & Heq & _ & Hpayload).
  exists action, more. split; [done |]. split.
  - intros id Hin. rewrite Hpayload. rewrite decide_True; [done |].
    split; [done |]. intros ->. done.
  - intros Hclamp Hsel Hlen.
    assert (indexOf (trackIdArray state) trackId = -1) as Hindex.
    { by apply indexOfFrom_absent. }
    split; [done |].
    unfold removeTrack in Heq. rewrite Hsel, decide_True in Heq by done.
    injection Heq as _ <-.
    rewrite Hindex, (filter_absent _ _ Hout).
    rewrite Hclamp by (unfold len; lia).
    rewrite Z.min_l, Z.max_l by (unfold len; lia).
    by rewrite head_lookup.
Qed.

(** ** Scenarios for the further properties *)

(** Sample 15 of the three-grain track. *)
Lemma sample_in_exactly_one_grain_witness :
  exists (n : nat) g,
    exampleGrains !! n = Some g /\ isInGrain 15 g = true /\
    grainAt exampleGrains 15 = Some g /\
    forall (m : nat) g',
      exampleGrains !! m = Some g' -> isInGrain 15 g' = true -> m = n.
Proof.
  apply (sample_in_exactly_one_grain exampleGrains 15 0 30); evaluate.
Defined.

(** The three-grain track split at 15. *)
Lemma splitGrain_splits_every_witness :
  splitGrain exampleGrains 15 = Ok (splitEvery exampleGrains 15) /\
  forall piece,
    piece ∈ splitEvery exampleGrains 15 ->
    exists g, g ∈ exampleGrains /\ start g <= start piece /\
              end_ piece <= end_ g /\ start piece < end_ piece /\
              rest piece = rest g.
Proof.
  apply (splitGrain_splits_every exampleGrains 15);
    [evaluate | evaluate | evaluate | repeat constructor; evaluate].
Defined.

(** Two splits of the middle grain, at 12 and at 17. *)
Lemma splitGrain_commutes_witness :
  exists both,
    (let* first := splitGrain exampleGrains 12 in splitGrain first 17) = Ok both /\
    (let* first := splitGrain exampleGrains 17 in splitGrain first 12) = Ok both.
Proof.
  apply (splitGrain_commutes exampleGrains 12 17);
    [evaluate | evaluate | evaluate | repeat constructor; evaluate | lia | lia].
Defined.

(** The three-grain track split inside the middle grain, and at a boundary. *)
Lemma splitGrain_cuts_iff_witness :
  (exists newGrains (n : nat) left right,
     splitGrain exampleGrains 15 = Ok newGrains /\
     length newGrains = S (length exampleGrains) /\
     newGrains !! n = Some left /\ newGrains !! S n = Some right /\
     end_ left = 15 /\ start right = 15) /\
  splitGrain exampleGrains 19 = Ok exampleGrains.
Proof.
  assert (Forall wellFormed exampleGrains) as Hwf
    by (repeat constructor; evaluate).
  split.
  - apply (proj1 (splitGrain_cuts_iff exampleGrains 15 ltac:(evaluate)
                    ltac:(evaluate) ltac:(evaluate) Hwf)).
    exists {| start := 10; end_ := 20; rest := empty |}.
    split; [unfold exampleGrains; set_solver | simpl; lia].
  - apply (proj2 (splitGrain_cuts_iff exampleGrains 19 ltac:(evaluate)
                    ltac:(evaluate) ltac:(evaluate) Hwf)).
    intros (g & Hg & Hcut). unfold exampleGrains in Hg.
    repeat (apply elem_of_cons in Hg as [-> | Hg]; [simpl in Hcut; lia |]).
    by apply elem_of_nil in Hg.
Defined.

(** The middle grain of the three-grain track split at 14 and at 15. *)
Lemma splitGrain_neighbours_do_not_commute_witness :
  exists lowFirst highFirst,
    (let* first := splitGrain exampleGrains 14 in splitGrain first (14 + 1))
      = Ok lowFirst /\
    (let* first := splitGrain exampleGrains (14 + 1) in splitGrain first 14)
      = Ok highFirst /\
    length lowFirst = S (S (length exampleGrains)) /\
    length highFirst = S (length exampleGrains) /\
    lowFirst <> highFirst.
Proof.
  apply (splitGrain_neighbours_do_not_commute exampleGrains
           {| start := 10; end_ := 20; rest := empty |} 14);
    [evaluate | evaluate | repeat constructor; evaluate
     | unfold exampleGrains; set_solver | simpl; lia | simpl; lia].
Defined.

(** The properties of the samples of the three-grain track around a split at
    15. *)
Lemma splitGrain_keeps_properties_witness :
  exists newGrains,
    splitGrain exampleGrains 15 = Ok newGrains /\
    forall sample,
      rest <$> grainAt newGrains sample = rest <$> grainAt exampleGrains sample /\
      (is_Some (grainAt newGrains sample)
         <-> is_Some (grainAt exampleGrains sample)).
Proof.
  apply (splitGrain_keeps_properties exampleGrains 15);
    [evaluate | evaluate | evaluate | repeat constructor; evaluate].
Defined.

(** The lengths of the three-grain track. *)
Lemma grainLengths_total_witness :
  grainLengths exampleGrains = [10; 10; 10] /\
  length (grainLengths exampleGrains) = length exampleGrains /\
  total (grainLengths exampleGrains) = 30 - 0.
Proof.
  split; [reflexivity |].
  apply (grainLengths_total exampleGrains 0 30); evaluate.
Defined.

(** The view [[5, 25)] of the three-grain track. *)
Lemma whichGrainsToShow_chain_witness :
  exists startFiller endFiller (n count : nat),
    whichGrainsToShow exampleGrains exampleView
      = Ok (startFiller :: take count (drop n exampleGrains) ++ [endFiller]) /\
    (0 < count)%nat /\ (n + count <= length exampleGrains)%nat /\
    contiguous (startFiller :: take count (drop n exampleGrains) ++ [endFiller]) /\
    start startFiller = vstart exampleView /\
    end_ endFiller = vend exampleView.
Proof.
  apply (whichGrainsToShow_chain exampleGrains exampleView 0 30); evaluate.
Defined.

Lemma grainIndexesInView_ordered_witness :
  exists ix g g',
    grainIndexesInView exampleGrains exampleView = Ok ix /\
    0 <= startIndex ix <= endIndex ix /\ endIndex ix < len exampleGrains /\
    index exampleGrains (startIndex ix) = Some g /\
    isInGrain (vstart exampleView) g = true /\
    index exampleGrains (endIndex ix) = Some g' /\
    (vend exampleView < 30 -> isInGrain (vend exampleView) g' = true) /\
    (30 <= vend exampleView -> endIndex ix = len exampleGrains - 1).
Proof.
  apply (grainIndexesInView_ordered exampleGrains exampleView 0 30); evaluate.
Defined.

(** The view [[0, 35)] of the three-grain track. *)
Lemma whichGrainsToShow_whole_track_witness :
  whichGrainsToShow exampleGrains {| vstart := 0; vend := 35 |} =
    Ok (createFillerGrain 0 0 false
          :: exampleGrains ++ [createFillerGrain 30 35 false]).
Proof.
  apply (whichGrainsToShow_whole_track exampleGrains
           {| vstart := 0; vend := 35 |} 0 30);
    [evaluate | evaluate | repeat constructor; evaluate
     | evaluate | evaluate | evaluate | evaluate].
Defined.

(** Sample cases of the three-grain track over twenty samples: the last grain
    lies beyond the data. *)
Lemma createSampleCases_values_witness :
  let data := seqZ (-10) 20 in
  exists cases s',
    createSampleCases Z walkingRandom exampleGrains data 4 1 = Ok (cases, s') /\
    length cases = length exampleGrains /\
    forall (i : nat) g,
      exampleGrains !! i = Some g ->
      exists inner,
        cases !! i = Some inner /\
        (0 <= start g -> end_ g <= len data ->
         Forall (fun value => exists n, value = Some n /\ 0 <= n) inner) /\
        (start g < end_ g -> end_ g <= 0 \/ len data <= start g ->
         inner <> [] /\ Forall (fun value => value = None) inner).
Proof.
  intros data.
  apply (createSampleCases_values Z walkingRandom exampleGrains data 4 1);
    [| lia | repeat constructor; simpl; lia].
  intros low high s Hlt. unfold walkingRandom. simpl.
  pose proof (Z.mod_pos_bound s (high - low)). lia.
Defined.

(** Removing the selected track ["intro"] of three. *)
Lemma removeTrack_payload_witness :
  exists action more,
    removeTrack nat "REMOVE_TRACK" listedIds clampBetween "intro" exampleState
      = DispatchAction action :: more /\
    type action = "REMOVE_TRACK" /\
    payload action !! "intro" = None /\
    (forall id,
       id ∈ listedIds exampleState -> id <> "intro" ->
       payload action !! id = Some (trackList (tracks exampleState) !! id)) /\
    (forall id, id ∉ listedIds exampleState -> payload action !! id = None).
Proof.
  apply (removeTrack_payload nat "REMOVE_TRACK" listedIds clampBetween "intro"
           exampleState).
Defined.

Lemma removeTrack_selects_neighbour_witness :
  listedIds exampleState = ["chorus"; "intro"; "verse"] /\
  exists action next,
    removeTrack nat "REMOVE_TRACK" listedIds clampBetween "intro" exampleState
      = [DispatchAction action; DispatchSelectTrack next] /\
    ((2 < length (listedIds exampleState))%nat ->
     next = listedIds exampleState !! 2%nat) /\
    ((2 = length (listedIds exampleState))%nat -> (0 < 1)%nat ->
     next = listedIds exampleState !! 0%nat) /\
    (length (listedIds exampleState) = 1%nat -> next = None).
Proof.
  split; [reflexivity |].
  apply (removeTrack_selects_neighbour nat "REMOVE_TRACK" listedIds clampBetween
           "intro" exampleState 1).
  - intros value low high _. reflexivity.
  - apply NoDup_fst_map_to_list.
  - reflexivity.
  - reflexivity.
Defined.

(** Removing an id that is not listed but is recorded as selected. *)
Lemma removeTrack_unknown_id_witness :
  exists action more,
    removeTrack nat "REMOVE_TRACK" listedIds clampBetween "outro" staleState
      = DispatchAction action :: more /\
    (forall id,
       id ∈ listedIds staleState ->
       payload action !! id = Some (trackList (tracks staleState) !! id)) /\
    ((forall value low high,
        low <= high ->
        clampBetween value low high = Z.max low (Z.min value high)) ->
     selectedTrack (tracks staleState) = Some "outro" ->
     (2 <= length (listedIds staleState))%nat ->
     indexOf (listedIds staleState) "outro" = -1 /\
     more = [DispatchSelectTrack (head (listedIds staleState))]).
Proof.
  assert (listedIds staleState = ["chorus"; "intro"; "verse"]) as Hids
    by reflexivity.
  apply (removeTrack_unknown_id nat "REMOVE_TRACK" listedIds clampBetween
           "outro" staleState).
  rewrite Hids. intros Hin.
  repeat (apply elem_of_cons in Hin as [Heq | Hin]; [discriminate Heq |]).
  by apply elem_of_nil in Hin.
Defined.
